(** * The element-configuration engine of [src/index.js]

    The module exports one function, [configure] here: it produces a node
    from a tag (creating it, looking it up by selector, or using the node it
    was given), resolves every own key of the options bag to one platform
    mutation, appends the child nodes and returns the node.

    The function is embedded as a computation in a state-and-exception monad
    over a heap of DOM elements.  JavaScript values, the [typeof] / truthiness
    / [Reflect.ownKeys] operations and the DOM primitives the source calls are
    modelled first; the embedding of the source follows, keeping its line
    order, and then the properties of the specification. *)

From Stdlib Require Import String Ascii ZArith List Bool Lia.
From stdpp Require Import base option gmap strings list pretty.
Import ListNotations.
Open Scope string_scope.
#[local] Set Warnings "-register-all".

(** ** JavaScript values *)

Module JS.

(** Property keys are strings or symbols. *)
Inductive Key :=
| KStr (s : string)
| KSym (id : nat).

#[global] Instance Key_eq_dec : EqDecision Key.
Proof. solve_decision. Defined.

#[global] Instance Key_countable : Countable Key :=
  inj_countable'
    (fun k => match k with KStr s => inl s | KSym n => inr n end)
    (fun x => match x with inl s => KStr s | inr n => KSym n end)
    (fun k => match k with KStr _ => eq_refl | KSym _ => eq_refl end).

(** Values.  Numbers are restricted to integers (so [NaN] and fractions are
    out of the model); an object is the list of its own properties in
    [Reflect.ownKeys] order, with a flag telling whether it is callable;
    documents and nodes are platform objects, held by reference. *)
Inductive value :=
| VUndefined
| VNull
| VBool (b : bool)
| VNumber (n : Z)
| VBigInt (n : Z)
| VString (s : string)
| VSymbol (id : nat)
| VObject (callable : bool) (entries : list (Key * value))
| VArray (items : list value)
| VNode (r : nat)
| VDocument (d : nat).

Inductive Exn :=
| TypeError
| ReferenceError
| SyntaxError
| InvalidCharacterError
| OtherError (name : string).

(** The outcome of evaluating an expression: a value or a thrown exception. *)
Inductive Completion (A : Type) :=
| Normal (a : A)
| Throw (x : Exn).
Arguments Normal {A} a.
Arguments Throw {A} x.

Inductive Typeof :=
| TUndefined | TObject | TBoolean | TNumber | TBigInt | TString | TSymbol
| TFunction.

#[global] Instance Typeof_eq_dec : EqDecision Typeof.
Proof. solve_decision. Defined.

Definition typeof (v : value) : Typeof :=
  match v with
  | VUndefined => TUndefined
  | VNull => TObject
  | VBool _ => TBoolean
  | VNumber _ => TNumber
  | VBigInt _ => TBigInt
  | VString _ => TString
  | VSymbol _ => TSymbol
  | VObject true _ => TFunction
  | VObject false _ => TObject
  | VArray _ => TObject
  | VNode _ => TObject
  | VDocument _ => TObject
  end.

(** [!!v] *)
Definition truthy (v : value) : bool :=
  match v with
  | VUndefined | VNull => false
  | VBool b => b
  | VNumber n | VBigInt n => negb (Z.eqb n 0)
  | VString s => negb (String.eqb s "")
  | _ => true
  end.

Definition isArray (v : value) : bool :=
  match v with VArray _ => true | _ => false end.

(** [s.startsWith(p)] and [s.slice(n)] on strings. *)
Definition startsWith (s p : string) : bool := String.prefix p s.

Fixpoint slice (n : nat) (s : string) : string :=
  match n, s with
  | S n', String _ s' => slice n' s'
  | _, _ => s
  end.

(** [s.toLowerCase()], on the ASCII letters. *)
Definition lower_ascii (c : ascii) : ascii :=
  let n := nat_of_ascii c in
  if (65 <=? n)%nat && (n <=? 90)%nat then ascii_of_nat (n + 32) else c.

Fixpoint toLowerCase (s : string) : string :=
  match s with
  | EmptyString => EmptyString
  | String c s' => String (lower_ascii c) (toLowerCase s')
  end.

(** The own properties of a value that is an object.  An array owns its
    indices and [length]; a platform object owns nothing (its members live
    on its prototype). *)
Definition indexed (items : list value) : list (Key * value) :=
  imap (fun i x => (KStr (pretty i), x)) items.

Definition own_entries (v : value) : list (Key * value) :=
  match v with
  | VObject _ entries => entries
  | VArray items =>
      indexed items ++ [(KStr "length", VNumber (Z.of_nat (length items)))]
  | _ => []
  end.

Definition is_object (v : value) : bool :=
  match v with
  | VObject _ _ | VArray _ | VNode _ | VDocument _ => true
  | _ => false
  end.

Fixpoint assoc (k : Key) (entries : list (Key * value)) : option value :=
  match entries with
  | [] => None
  | (k', x) :: rest => if bool_decide (k' = k) then Some x else assoc k rest
  end.

(** [v[k]] for a value that is not [null] or [undefined]; members found on
    prototypes are not modelled and read as [undefined]. *)
Definition get (v : value) (k : Key) : value :=
  default VUndefined (assoc k (own_entries v)).

(** [Reflect.ownKeys(v)]: a [TypeError] unless [v] is an object. *)
Definition ownKeys (v : value) : Completion (list Key) :=
  if is_object v then Normal (map fst (own_entries v)) else Throw TypeError.

Definition characters (s : string) : list value :=
  map (fun c => VString (String c EmptyString)) (list_ascii_of_string s).

(** The own enumerable properties that [Object.assign] copies from a
    source: those of an object, the elements of an array, the characters of
    a string, nothing for the other primitives. *)
Definition own_enumerable (v : value) : list (Key * value) :=
  match v with
  | VObject _ entries => entries
  | VArray items => indexed items
  | VString s => indexed (characters s)
  | _ => []
  end.

(** [...v] in an argument list: arrays and strings are iterable, the other
    values of the model are not. *)
Definition spread (v : value) : Completion (list value) :=
  match v with
  | VArray items => Normal items
  | VString s => Normal (characters s)
  | _ => Throw TypeError
  end.

Definition key_to_string (k : Key) : Completion string :=
  match k with
  | KStr s => Normal s
  | KSym _ => Throw TypeError
  end.

End JS.
Export JS.

(** ** The platform: documents, elements and their mutation primitives *)

Module DOM.

(** A member of an element's property surface.  [key in node] holds exactly
    for the keys that have a slot.  A data slot holds a value and rejects
    assignment when it is not writable (module code is strict, so the
    assignment throws); the other three kinds are the platform objects the
    source reaches through [node.style], [node.classList] and
    [node.dataset]. *)
Inductive Slot :=
| Data (writable : bool) (v : value)
| StyleDecl (cssText : string)
| TokenList (tokens : list string)
| StringMap (entries : gmap string string).

Inductive Child :=
| ChildNode (r : nat)
| ChildText (s : string).

Record Element := mkElement {
  el_namespace : option string;
  el_localName : string;
  el_props : gmap Key Slot;
  el_attributes : gmap string string;
  el_listeners : list (string * value * option value);
  el_children : list Child;
}.

Definition with_props (e : Element) (p : gmap Key Slot) : Element :=
  mkElement (el_namespace e) (el_localName e) p (el_attributes e)
    (el_listeners e) (el_children e).

Definition with_attributes (e : Element) (a : gmap string string) : Element :=
  mkElement (el_namespace e) (el_localName e) (el_props e) a
    (el_listeners e) (el_children e).

Definition with_listeners (e : Element)
    (l : list (string * value * option value)) : Element :=
  mkElement (el_namespace e) (el_localName e) (el_props e) (el_attributes e)
    l (el_children e).

Definition with_children (e : Element) (c : list Child) : Element :=
  mkElement (el_namespace e) (el_localName e) (el_props e) (el_attributes e)
    (el_listeners e) c.

(** A document answers selector lookups and creates elements; what it
    creates is the platform's choice. *)
Record Document := mkDocument {
  doc_querySelector : string -> Completion (option nat);
  doc_createElement : string -> option value -> Completion Element;
  doc_createElementNS : string -> string -> Completion Element;
}.

(** What the engine takes from its environment: the global bindings in
    scope of the module, the documents, the platform's validity tests for
    attribute and dataset names, the string conversion of objects (their
    [toString]) and [JSON.stringify], which the source calls [stringify]. *)
Record Realm := mkRealm {
  globals : gmap string value;
  document_of : nat -> Document;
  valid_attribute_name : string -> bool;
  valid_dataset_name : string -> bool;
  object_to_string : value -> Completion string;
  stringify : value -> Completion value;
}.

(** What the run did, in order: the reads of the options bag and the
    mutations of nodes that took effect. *)
Inductive Event :=
| OptionRead (k : Key)
| NodeCreated (r : nat)
| PropertySet (r : nat) (k : Key) (v : value)
| StyleTextSet (r : nat) (css : string)
| AttributeSet (r : nat) (name val : string)
| AttributeToggled (r : nat) (name : string) (force : bool)
| DatasetSet (r : nat) (name val : string)
| ClassesAdded (r : nat) (tokens : list string)
| ListenerAdded (r : nat) (type : string) (callback : value)
    (options : option value)
| ChildrenAppended (r : nat) (children : list Child).

Record World := mkWorld {
  heap : gmap nat Element;
  journal : list Event;
}.

(** *** The monad *)

Definition M (A : Type) : Type := World -> Completion A * World.

Definition ret {A} (a : A) : M A := fun w => (Normal a, w).

Definition throw {A} (x : Exn) : M A := fun w => (Throw x, w).

Definition bind {A B} (m : M A) (k : A -> M B) : M B :=
  fun w =>
    match m w with
    | (Normal a, w') => k a w'
    | (Throw x, w') => (Throw x, w')
    end.

(** [try { m } catch { h }] *)
Definition try_catch {A} (m : M A) (h : M A) : M A :=
  fun w =>
    match m w with
    | (Normal a, w') => (Normal a, w')
    | (Throw _, w') => h w'
    end.

Definition lift {A} (c : Completion A) : M A := fun w => (c, w).

Notation "'let*' x ':=' m 'in' k" := (bind m (fun x => k))
  (at level 10, x name, m at level 100, k at level 200).
Notation "m ';;' k" := (bind m (fun _ => k))
  (at level 100, k at level 200, right associativity).

Fixpoint for_each {A} (l : list A) (body : A -> M unit) : M unit :=
  match l with
  | [] => ret tt
  | x :: rest => body x ;; for_each rest body
  end.

Definition record (ev : Event) : M unit :=
  fun w => (Normal tt, mkWorld (heap w) (journal w ++ [ev])).

(** Dereferencing a node that is not in the heap is the [TypeError] of
    using a value that is not an object. *)
Definition element (r : nat) : M Element :=
  fun w =>
    match heap w !! r with
    | Some e => (Normal e, w)
    | None => (Throw TypeError, w)
    end.

Definition update (r : nat) (f : Element -> Element) (ev : Event) : M unit :=
  fun w =>
    match heap w !! r with
    | Some e => (Normal tt, mkWorld (<[r := f e]> (heap w)) (journal w ++ [ev]))
    | None => (Throw TypeError, w)
    end.

(** *** String conversion *)

(** [ToString]: symbols do not convert; objects convert through their own
    [toString], which the realm supplies. *)
Definition to_string (R : Realm) (v : value) : Completion string :=
  match v with
  | VUndefined => Normal "undefined"
  | VNull => Normal "null"
  | VBool true => Normal "true"
  | VBool false => Normal "false"
  | VNumber n => Normal (pretty n)
  | VBigInt n => Normal (pretty n)
  | VString s => Normal s
  | VSymbol _ => Throw TypeError
  | _ => object_to_string R v
  end.

Fixpoint to_strings (R : Realm) (vs : list value) : Completion (list string) :=
  match vs with
  | [] => Normal []
  | v :: rest =>
      match to_string R v with
      | Throw x => Throw x
      | Normal s =>
          match to_strings R rest with
          | Throw x => Throw x
          | Normal ss => Normal (s :: ss)
          end
      end
  end.

(** *** Token lists *)

Definition is_space (c : ascii) : bool :=
  match nat_of_ascii c with
  | 9 | 10 | 12 | 13 | 32 => true
  | _ => false
  end.

Definition has_space (s : string) : bool :=
  existsb is_space (list_ascii_of_string s).

Definition add_token (acc : list string) (t : string) : list string :=
  if bool_decide (t ∈ acc) then acc else acc ++ [t].

Definition add_tokens (cur new : list string) : list string :=
  fold_left add_token new cur.

Fixpoint split_tokens (cs cur : list ascii) : list string :=
  match cs with
  | [] =>
      match cur with
      | [] => []
      | _ => [string_of_list_ascii (rev cur)]
      end
  | c :: rest =>
      if is_space c then
        match cur with
        | [] => split_tokens rest []
        | _ => string_of_list_ascii (rev cur) :: split_tokens rest []
        end
      else split_tokens rest (c :: cur)
  end.

(** The ordered-set parser behind [tokenList.value = s]. *)
Definition parse_tokens (s : string) : list string :=
  add_tokens [] (split_tokens (list_ascii_of_string s) []).

(** [tokenList.add(...)] checks every token, in order, before it adds any. *)
Fixpoint validate_tokens (toks : list string) : Completion unit :=
  match toks with
  | [] => Normal tt
  | t :: rest =>
      if String.eqb t "" then Throw SyntaxError
      else if has_space t then Throw InvalidCharacterError
      else validate_tokens rest
  end.

(** *** Primitives on a node *)

(** [key in node] *)
Definition has_property (e : Element) (k : Key) : bool :=
  bool_decide (is_Some (el_props e !! k)).

Definition key_in (r : nat) (k : Key) : M bool :=
  let* e := element r in ret (has_property e k).

(** [node[k] = v].  A writable data slot (or a fresh expando) stores the
    value; a read-only one throws; a style declaration forwards to its
    text and a token list to its value ([PutForwards]); a string map has
    no setter. *)
Definition set_property (R : Realm) (r : nat) (k : Key) (v : value) : M unit :=
  let* e := element r in
  match el_props e !! k with
  | Some (Data false _) => throw TypeError
  | Some (StringMap _) => throw TypeError
  | Some (StyleDecl _) =>
      let* s := lift (to_string R v) in
      update r (fun e => with_props e (<[k := StyleDecl s]> (el_props e)))
        (PropertySet r k v)
  | Some (TokenList _) =>
      let* s := lift (to_string R v) in
      update r
        (fun e => with_props e (<[k := TokenList (parse_tokens s)]> (el_props e)))
        (PropertySet r k v)
  | Some (Data true _) | None =>
      update r (fun e => with_props e (<[k := Data true v]> (el_props e)))
        (PropertySet r k v)
  end.

(** [node.setAttribute(name, v)]: both arguments are converted to strings,
    then the name is validated.  (The lower-casing of the name that HTML
    elements of HTML documents apply is not modelled.) *)
Definition setAttribute (R : Realm) (r : nat) (name : Key) (v : value)
    : M unit :=
  element r ;;
  let* n := lift (key_to_string name) in
  let* s := lift (to_string R v) in
  if valid_attribute_name R n then
    update r (fun e => with_attributes e (<[n := s]> (el_attributes e)))
      (AttributeSet r n s)
  else throw InvalidCharacterError.

Definition toggled (name : string) (force : bool) (a : gmap string string)
    : gmap string string :=
  if force then
    match a !! name with
    | Some _ => a
    | None => <[name := ""]> a
    end
  else delete name a.

(** [node.toggleAttribute(name, force)] *)
Definition toggleAttribute (R : Realm) (r : nat) (name : string)
    (force : bool) : M unit :=
  element r ;;
  if valid_attribute_name R name then
    update r (fun e => with_attributes e (toggled name force (el_attributes e)))
      (AttributeToggled r name force)
  else throw InvalidCharacterError.

(** [node.style.cssText = v].  Without a style declaration under [style],
    [node.style] is [undefined] and the assignment is a [TypeError] (slots
    of another kind under that name do not occur on DOM nodes and are
    treated like a missing one). *)
Definition set_style_text (R : Realm) (r : nat) (v : value) : M unit :=
  let* e := element r in
  match el_props e !! KStr "style" with
  | Some (StyleDecl _) =>
      let* s := lift (to_string R v) in
      update r
        (fun e => with_props e (<[KStr "style" := StyleDecl s]> (el_props e)))
        (StyleTextSet r s)
  | _ => throw TypeError
  end.

(** One step of [Object.assign(node.dataset, source)]: a string key goes
    through the map's setter; a symbol key becomes an ordinary property of
    the map object and is no dataset entry. *)
Definition dataset_put (R : Realm) (r : nat) (kx : Key * value) : M unit :=
  match fst kx with
  | KSym _ => ret tt
  | KStr name =>
      let* s := lift (to_string R (snd kx)) in
      if valid_dataset_name R name then
        let* e := element r in
        match el_props e !! KStr "dataset" with
        | Some (StringMap m) =>
            update r
              (fun e =>
                 with_props e (<[KStr "dataset" := StringMap (<[name := s]> m)]>
                                 (el_props e)))
              (DatasetSet r name s)
        | _ => throw TypeError
        end
      else throw SyntaxError
  end.

(** [Object.assign(node.dataset, source)]: the target must be an object
    (here: the node's string map); the entries are copied one at a time. *)
Definition dataset_assign (R : Realm) (r : nat) (source : value) : M unit :=
  let* e := element r in
  match el_props e !! KStr "dataset" with
  | Some (StringMap _) => for_each (own_enumerable source) (dataset_put R r)
  | _ => throw TypeError
  end.

(** [node.classList.add(...v)] *)
Definition classList_add (R : Realm) (r : nat) (v : value) : M unit :=
  let* e := element r in
  match el_props e !! KStr "classList" with
  | Some (TokenList cur) =>
      let* args := lift (spread v) in
      let* toks := lift (to_strings R args) in
      lift (validate_tokens toks) ;;
      update r
        (fun e =>
           with_props e (<[KStr "classList" := TokenList (add_tokens cur toks)]>
                           (el_props e)))
        (ClassesAdded r toks)
  | _ => throw TypeError
  end.

(** [node.addEventListener(type, ...args)].  The callback argument is
    required and must be an object or [null]/[undefined] (which registers
    nothing); the options argument is stored as given; the platform's
    suppression of duplicate registrations is not modelled. *)
Definition addEventListener (r : nat) (type : string) (args : list value)
    : M unit :=
  element r ;;
  match args with
  | [] => throw TypeError
  | callback :: rest =>
      match callback with
      | VUndefined | VNull => ret tt
      | _ =>
          if is_object callback then
            update r
              (fun e =>
                 with_listeners e (el_listeners e ++ [(type, callback, head rest)]))
              (ListenerAdded r type callback (head rest))
          else throw TypeError
      end
  end.

Definition to_child (R : Realm) (v : value) : Completion Child :=
  match v with
  | VNode c => Normal (ChildNode c)
  | VDocument _ => Throw (OtherError "HierarchyRequestError")
  | _ =>
      match to_string R v with
      | Normal s => Normal (ChildText s)
      | Throw x => Throw x
      end
  end.

Fixpoint to_children (R : Realm) (vs : list value) : Completion (list Child) :=
  match vs with
  | [] => Normal []
  | v :: rest =>
      match to_child R v with
      | Throw x => Throw x
      | Normal c =>
          match to_children R rest with
          | Throw x => Throw x
          | Normal cs => Normal (c :: cs)
          end
      end
  end.

(** [node.append(...children)]: nodes are appended, other values as text;
    a document cannot be a child. *)
Definition append (R : Realm) (r : nat) (children : list value) : M unit :=
  element r ;;
  let* cs := lift (to_children R children) in
  update r (fun e => with_children e (el_children e ++ cs))
    (ChildrenAppended r cs).

(** An identifier that no enclosing scope binds is looked up among the
    globals; an unbound one is a [ReferenceError]. *)
Definition lookup_identifier (R : Realm) (name : string) : M value :=
  match globals R !! name with
  | Some v => ret v
  | None => throw ReferenceError
  end.

End DOM.
Export DOM.

(** ** The source: [export default (tag, options, ...childNodes) => ...] *)

Module Engine.

(** The options bag: its own properties in [Reflect.ownKeys] order. *)
Definition Bag : Type := list (Key * value).

(** [options[key]] and [options.name], journalled. *)
Definition read (options : Bag) (k : Key) : M value :=
  record (OptionRead k) ;;
  ret (default VUndefined (assoc k options)).

(** The first argument: [typeof tag === 'string'] or a node. *)
Inductive Tag :=
| TagString (s : string)
| TagNode (r : nat).

Definition svg_namespace : string := "http://www.w3.org/2000/svg".

Definition as_document (R : Realm) (doc : value) : M Document :=
  match doc with
  | VDocument d => ret (document_of R d)
  | _ => throw TypeError
  end.

(** A created element gets a reference the heap does not use yet. *)
Definition allocate (e : Element) : M nat :=
  fun w =>
    let r := fresh (dom (heap w)) in
    (Normal r, mkWorld (<[r := e]> (heap w)) (journal w ++ [NodeCreated r])).

(** Line 18: [doc = options.document || document]. *)
Definition choose_document (R : Realm) (options : Bag) : M value :=
  let* d := read options (KStr "document") in
  if truthy d then ret d else lookup_identifier R "document".

(** Lines 18-44: the node to configure and the [custom] flag, or [None]
    where the source returns [null] (line 25). *)
Definition provide (R : Realm) (tag : Tag) (options : Bag)
    : M (option (bool * nat)) :=
  let* doc := choose_document R options in
  match tag with
  | TagString tag =>
      if startsWith tag "<" then
        (* 23-25 *)
        let* D := as_document R doc in
        let* found := lift (doc_querySelector D (slice 1 tag)) in
        match found with
        | None => ret None
        | Some r => ret (Some (false, r))
        end
      else
        (* 30-39 *)
        let isSVG := bool_decide (tag = "svg") in
        let isNS := isSVG || startsWith tag "svg:" in
        if isNS then
          let* D := as_document R doc in
          let* e := lift (doc_createElementNS D svg_namespace
                            (if isSVG then tag else slice 4 tag)) in
          let* r := allocate e in
          ret (Some (false, r))
        else
          let* i := read options (KStr "is") in
          let custom := truthy i in
          if custom then
            let* i' := read options (KStr "is") in
            let* D := as_document R doc in
            let* e := lift (doc_createElement D tag (Some i')) in
            let* r := allocate e in
            ret (Some (custom, r))
          else
            let* D := as_document R doc in
            let* e := lift (doc_createElement D tag None) in
            let* r := allocate e in
            ret (Some (custom, r))
  | TagNode r =>
      (* 44 *)
      ret (Some (false, r))
  end.

(** What a stage of the loop body hands on: [continue], or the key and
    value the next stage works with. *)
Inductive Flow :=
| Continue
| Onward (key : Key) (value : value).

(** Line 57: [k === 'role' ? k : `aria-${k.toLowerCase()}`]; a symbol has
    no [toLowerCase]. *)
Definition aria_name (k : Key) : Completion Key :=
  if bool_decide (k = KStr "role") then Normal k
  else
    match k with
    | KStr s => Normal (KStr ("aria-" +:+ toLowerCase s))
    | KSym _ => Throw TypeError
    end.

(** Lines 51-85.  In [case 'style'] the identifier [isSVG] is not the
    constant of line 30: that one is declared inside the [else] block of
    lines 27-41 and is out of scope here, so the identifier resolves among
    the globals. *)
Definition named_intent (R : Realm) (node : nat) (key : Key) (value : value)
    : M Flow :=
  let* known := key_in node key in
  if known then ret (Onward key value)
  else if bool_decide (key = KStr "aria") then
    let* ks := lift (ownKeys value) in
    for_each ks
      (fun k =>
         let* name := lift (aria_name k) in
         setAttribute R node name (get value k)) ;;
    ret Continue
  else if bool_decide (key = KStr "data") then
    dataset_assign R node value ;;
    ret Continue
  else if bool_decide (key = KStr "style") then
    let* isSVG := lookup_identifier R "isSVG" in
    (if truthy isSVG then setAttribute R node (KStr "style") value
     else set_style_text R node value) ;;
    ret Continue
  else if bool_decide (key = KStr "class") then
    ret (Onward (KStr "className") value)
  else if bool_decide (key = KStr "html") then
    ret (Onward (KStr "innerHTML") value)
  else if bool_decide (key = KStr "text") then
    ret (Onward (KStr "textContent") value)
  else ret (Onward key value).

(** Lines 87-105. *)
Definition known_property (R : Realm) (node : nat) (key : Key) (value : value)
    : M Flow :=
  let* known := key_in node key in
  if known then
    (if bool_decide (key = KStr "classList") then classList_add R node value
     else
       try_catch (set_property R node key value)
         (setAttribute R node key value)) ;;
    ret Continue
  else ret (Onward key value).

(** Lines 111-119, the body shared by the two cases of the switch. *)
Definition at_case (node : nat) (key : string) (value : value) : M Flow :=
  let key := slice 1 key in
  if isArray value then
    let* args := lift (spread value) in
    addEventListener node key args ;;
    ret Continue
  else ret (Onward (KStr key) value).

(** Lines 108-120.  [key.startsWith] is read before anything else: a
    symbol has no such method.  The [?] case falls through into the [@]
    one. *)
Definition hint_prefix (node : nat) (key : Key) (value : value) : M Flow :=
  match key with
  | KSym _ => throw TypeError
  | KStr s =>
      if startsWith s "?" then at_case node s (VBool (truthy value))
      else if startsWith s "@" then at_case node s value
      else ret (Onward key value)
  end.

(** Lines 123-147.  The key is a string here, line 109 having thrown for a
    symbol (which the platform calls would not convert to a name either). *)
Definition by_type (R : Realm) (node : nat) (key : Key) (value : value)
    : M unit :=
  match typeof value with
  | TBoolean =>
      match key with
      | KStr s => toggleAttribute R node s (truthy value)
      | KSym _ => throw TypeError
      end
  | TUndefined | TObject =>
      if negb (truthy value) then ret tt
      else if bool_decide (typeof (get value (KStr "handleEvent")) <> TFunction)
      then
        let* json := lift (stringify R value) in
        setAttribute R node key json
      else
        match key with
        | KStr s => addEventListener node s [value]
        | KSym _ => throw TypeError
        end
  | TFunction =>
      match key with
      | KStr s => addEventListener node s [value]
      | KSym _ => throw TypeError
      end
  | _ => setAttribute R node key value
  end.

Definition onward (f : Flow) (next : Key -> value -> M unit) : M unit :=
  match f with
  | Continue => ret tt
  | Onward key value => next key value
  end.

(** Lines 51-147: the resolution of one key/value pair. *)
Definition resolve_pair (R : Realm) (node : nat) (key : Key) (value : value)
    : M unit :=
  let* f := named_intent R node key value in
  onward f (fun key value =>
  let* f := known_property R node key value in
  onward f (fun key value =>
  let* f := hint_prefix node key value in
  onward f (by_type R node))).

(** Lines 48-49 and the loop body. *)
Definition resolve_key (R : Realm) (node : nat) (custom : bool)
    (options : Bag) (key : Key) : M unit :=
  if custom && bool_decide (key = KStr "is") then ret tt
  else
    let* value := read options key in
    resolve_pair R node key value.

(** Lines 47-148. *)
Definition resolve (R : Realm) (node : nat) (custom : bool) (options : Bag)
    : M unit :=
  for_each (map fst options) (resolve_key R node custom options).

(** Lines 16-153.  [options] is [None] for [null] or [undefined]. *)
Definition configure (R : Realm) (tag : Tag) (options : option Bag)
    (childNodes : list value) : M value :=
  (* 17: options ??= empty *)
  let options := default [] options in
  let* p := provide R tag options in
  match p with
  | None => ret VNull
  | Some (custom, node) =>
      resolve R node custom options ;;
      match childNodes with
      | [] => ret tt
      | _ => append R node childNodes
      end ;;
      ret (VNode node)
  end.

End Engine.
Export Engine.

(** ** A concrete realm

    One document, with the string conversions of plain data, and three
    kinds of node: an HTML element, an SVG element (whose [className] is
    read-only) and an element of an XML document in a namespace of its
    own, which has neither a style declaration nor a dataset. *)

Module Sample.

Definition join_with (sep : string) (parts : list string) : string :=
  match parts with
  | [] => ""
  | p :: rest => fold_left (fun acc q => acc +:+ sep +:+ q) rest p
  end.

(** [String(v)] for plain data: [Array.prototype.join] for arrays, the
    default [Object.prototype.toString] for the other objects. *)
Fixpoint plain_to_string (v : value) : Completion string :=
  match v with
  | VUndefined => Normal "undefined"
  | VNull => Normal "null"
  | VBool true => Normal "true"
  | VBool false => Normal "false"
  | VNumber n | VBigInt n => Normal (pretty n)
  | VString s => Normal s
  | VSymbol _ => Throw TypeError
  | VObject true _ => Normal "function () { [native code] }"
  | VObject false _ => Normal "[object Object]"
  | VNode _ => Normal "[object Element]"
  | VDocument _ => Normal "[object Document]"
  | VArray items =>
      let fix parts (l : list value) : Completion (list string) :=
        match l with
        | [] => Normal []
        | x :: rest =>
            match
              match x with
              | VUndefined | VNull => Normal ""
              | _ => plain_to_string x
              end
            with
            | Throw e => Throw e
            | Normal s =>
                match parts rest with
                | Throw e => Throw e
                | Normal ss => Normal (s :: ss)
                end
            end
        end in
      match parts items with
      | Throw e => Throw e
      | Normal ss => Normal (join_with "," ss)
      end
  end.

Definition quote (s : string) : string :=
  let q := String (ascii_of_nat 34) EmptyString in q +:+ s +:+ q.

(** [JSON.stringify] for plain data whose strings need no escaping;
    [None] where the value has no JSON form. *)
Fixpoint json (v : value) : Completion (option string) :=
  match v with
  | VUndefined | VSymbol _ | VObject true _ => Normal None
  | VNull => Normal (Some "null")
  | VBool true => Normal (Some "true")
  | VBool false => Normal (Some "false")
  | VNumber n => Normal (Some (pretty n))
  | VBigInt _ => Throw TypeError
  | VString s => Normal (Some (quote s))
  | VNode _ | VDocument _ => Normal (Some "{}")
  | VArray items =>
      let fix parts (l : list value) : Completion (list string) :=
        match l with
        | [] => Normal []
        | x :: rest =>
            match json x, parts rest with
            | Normal o, Normal ss => Normal (default "null" o :: ss)
            | Throw e, _ | _, Throw e => Throw e
            end
        end in
      match parts items with
      | Throw e => Throw e
      | Normal ss => Normal (Some ("[" +:+ join_with "," ss +:+ "]"))
      end
  | VObject false entries =>
      let fix parts (l : list (Key * value)) : Completion (list string) :=
        match l with
        | [] => Normal []
        | (KSym _, _) :: rest => parts rest
        | (KStr k, x) :: rest =>
            match json x, parts rest with
            | Normal None, Normal ss => Normal ss
            | Normal (Some j), Normal ss => Normal ((quote k +:+ ":" +:+ j) :: ss)
            | Throw e, _ | _, Throw e => Throw e
            end
        end in
      match parts entries with
      | Throw e => Throw e
      | Normal ss => Normal (Some ("{" +:+ join_with "," ss +:+ "}"))
      end
  end.

Definition plain_stringify (v : value) : Completion value :=
  match json v with
  | Throw e => Throw e
  | Normal None => Normal VUndefined
  | Normal (Some s) => Normal (VString s)
  end.

(** Names: not empty and free of white space. *)
Definition plain_name (s : string) : bool :=
  negb (String.eqb s "") && negb (has_space s).

Definition html_props : gmap Key Slot :=
  list_to_map
    [ (KStr "id", Data true (VString ""));
      (KStr "title", Data true (VString ""));
      (KStr "className", Data true (VString ""));
      (KStr "innerHTML", Data true (VString ""));
      (KStr "textContent", Data true (VString ""));
      (KStr "tagName", Data false (VString "DIV"));
      (KStr "onclick", Data true VNull);
      (KStr "classList", TokenList []);
      (KStr "style", StyleDecl "");
      (KStr "dataset", StringMap ∅) ].

Definition svg_props : gmap Key Slot :=
  list_to_map
    [ (KStr "id", Data true (VString ""));
      (KStr "className", Data false (VObject false []));
      (KStr "viewBox", Data false (VObject false []));
      (KStr "innerHTML", Data true (VString ""));
      (KStr "textContent", Data true (VString ""));
      (KStr "classList", TokenList []);
      (KStr "style", StyleDecl "");
      (KStr "dataset", StringMap ∅) ].

Definition xml_props : gmap Key Slot :=
  list_to_map
    [ (KStr "id", Data true (VString ""));
      (KStr "className", Data true (VString ""));
      (KStr "innerHTML", Data true (VString ""));
      (KStr "textContent", Data true (VString ""));
      (KStr "classList", TokenList []) ].

Definition html_element (name : string) : Element :=
  mkElement None name html_props ∅ [] [].

Definition svg_element (name : string) : Element :=
  mkElement (Some svg_namespace) name svg_props ∅ [] [].

Definition xml_element (name : string) : Element :=
  mkElement (Some "urn:example:shapes") name xml_props ∅ [] [].

(** The document: node 0 answers the selector [#app], nothing else
    matches. *)
Definition page : Document :=
  mkDocument
    (fun sel => if String.eqb sel "" then Throw SyntaxError
                else Normal (if String.eqb sel "#app" then Some 0 else None))
    (fun tag _ => if plain_name tag then Normal (html_element tag)
                  else Throw InvalidCharacterError)
    (fun _ name => if plain_name name then Normal (svg_element name)
                   else Throw InvalidCharacterError).

Definition realm : Realm :=
  mkRealm {[ "document" := VDocument 0 ]} (fun _ => page)
    plain_name plain_name plain_to_string plain_stringify.

(** Node 0 is an HTML element, node 1 an SVG element, node 2 an XML one. *)
Definition world : World :=
  mkWorld
    (<[0 := html_element "div"]>
       (<[1 := svg_element "circle"]> (<[2 := xml_element "item"]> ∅)))
    [].

(** The HTML element with a [hidden] attribute. *)
Definition hidden_div : Element :=
  with_attributes (html_element "div") {[ "hidden" := "" ]}.

End Sample.

(** ** The vocabulary of the properties *)

(** The keys that line 53 switches on. *)
Definition named_intents : list string :=
  ["aria"; "data"; "style"; "class"; "html"; "text"].



(** The document line 18 settles on, if any. *)
Definition chosen_document (R : Realm) (options : Bag) : option value :=
  let d := default VUndefined (assoc (KStr "document") options) in
  if truthy d then Some d else globals R !! "document".

(** The tag is a selector string and its lookup in the chosen document
    matches nothing. *)
Definition selector_misses (R : Realm) (tag : Tag) (options : Bag) : Prop :=
  exists s d,
    tag = TagString s /\ startsWith s "<" = true
    /\ chosen_document R options = Some (VDocument d)
    /\ doc_querySelector (document_of R d) (slice 1 s) = Normal None.

(** The outcome categories of the specification. *)
Inductive Category :=
| PropertyWrite
| AttributeWrite
| DatasetMerge
| AriaExpansion
| ClassListAddition
| ListenerRegistration
| Ignored.

(** An [aria] key that the node does not know as a property is expanded;
    the attribute writes of such a pair are the ARIA expansion. *)
Definition expands_aria (e : Element) (k : Key) : bool :=
  bool_decide (k = KStr "aria") && negb (has_property e k).

(** The category of a mutation. *)
Definition category_of (expansion : bool) (ev : Event) : option Category :=
  match ev with
  | PropertySet _ _ _ | StyleTextSet _ _ => Some PropertyWrite
  | AttributeSet _ _ _ | AttributeToggled _ _ _ =>
      Some (if expansion then AriaExpansion else AttributeWrite)
  | DatasetSet _ _ _ => Some DatasetMerge
  | ClassesAdded _ _ => Some ClassListAddition
  | ListenerAdded _ _ _ _ => Some ListenerRegistration
  | OptionRead _ | NodeCreated _ | ChildrenAppended _ _ => None
  end.

(** The category [c] is the outcome of a pair that journalled [evs]: it was
    ignored if nothing was journalled, and otherwise every mutation is of
    category [c]. *)
Definition outcome (expansion : bool) (evs : list Event) (c : Category)
    : Prop :=
  match evs with
  | [] => c = Ignored
  | _ => Forall (fun ev => category_of expansion ev = Some c) evs
  end.

(** Running [m] from [w] journals mutations of category [c] only. *)
Definition only {A} (expansion : bool) (c : Category) (m : M A) (w : World)
    : Prop :=
  exists evs,
    journal (snd (m w)) = (journal w ++ evs)%list
    /\ Forall (fun ev => category_of expansion ev = Some c) evs.

(** A stage of the loop body has finished the pair: it journals mutations
    of one category and does not hand the pair on. *)
Definition finishes (x : bool) (m : M Flow) (w : World) : Prop :=
  exists c, only x c m w /\ forall f, fst (m w) = Normal f -> f = Continue.









(** The kinds of member of the property surface.  No mutation of the engine
    adds or removes a property of the node or changes its kind, so whether a
    pair is accepted is settled by the node as it is before the first
    pair. *)
Inductive SlotKind :=
| KData (writable : bool)
| KStyle
| KTokens
| KMap.

Definition kind (s : Slot) : SlotKind :=
  match s with
  | Data writable _ => KData writable
  | StyleDecl _ => KStyle
  | TokenList _ => KTokens
  | StringMap _ => KMap
  end.

Definition same_surface (e e' : Element) : Prop :=
  forall k, kind <$> (el_props e !! k) = kind <$> (el_props e' !! k).

(** Running [m] from [w] keeps the node and its surface. *)
Definition keeps {A} (node : nat) (m : M A) (w : World) : Prop :=
  forall e,
    heap w !! node = Some e ->
    exists e', heap (snd (m w)) !! node = Some e' /\ same_surface e e'.

(** ** The vocabulary of the further properties *)

(** The name under which a key reaches the type switch of line 123: the
    key less a leading [@] (lines 111-112). *)
Definition fallback_name (s : string) : string :=
  if startsWith s "@" then slice 1 s else s.

(** The dataset after the writes of a [data] mapping, in order. *)
Definition dataset_written (writes : list (string * string))
    (m : gmap string string) : gmap string string :=
  fold_left (fun m sv => <[fst sv := snd sv]> m) writes m.

(** The bag without its [is] key. *)
Definition without_is (options : list (Key * value)) : Bag :=
  filter (fun kx => fst kx <> KStr "is") options.

(** The keys of the bag that line 48 does not skip. *)
Definition resolved_keys (custom : bool) (options : Bag) : list Key :=
  filter (fun k => ~ (custom = true /\ k = KStr "is")) (map fst options).

(** The keys read from the bag, in the order of the journal. *)
Definition read_key (ev : Event) : option Key :=
  match ev with
  | OptionRead k => Some k
  | _ => None
  end.

Definition reads (evs : list Event) : list Key := omap read_key evs.

(** The node a journalled platform call was made on. *)
Definition receiver (ev : Event) : option nat :=
  match ev with
  | OptionRead _ => None
  | NodeCreated r | PropertySet r _ _ | StyleTextSet r _ | AttributeSet r _ _
  | AttributeToggled r _ _ | DatasetSet r _ _ | ClassesAdded r _
  | ListenerAdded r _ _ _ | ChildrenAppended r _ => Some r
  end.

(** Every platform call among [evs] was made on [node]. *)
Definition on_node (node : nat) (evs : list Event) : Prop :=
  Forall (fun ev => forall r, receiver ev = Some r -> r = node) evs.

(** [m] changes no element but [node] and calls the platform on no other
    node. *)
Definition confined {A} (node : nat) (m : M A) : Prop :=
  forall w,
    (forall r, r <> node -> heap (snd (m w)) !! r = heap w !! r)
    /\ exists evs,
         journal (snd (m w)) = (journal w ++ evs)%list /\ on_node node evs.

(** The realm with other global bindings. *)
Definition with_globals (R : Realm) (g : gmap string value) : Realm :=
  mkRealm g (document_of R) (valid_attribute_name R) (valid_dataset_name R)
    (object_to_string R) (stringify R).

(** The [is] hint of the options, as line 37 tests it. *)
Definition is_hint (options : Bag) : bool :=
  truthy (default VUndefined (assoc (KStr "is") options)).

(** The tags that line 32 creates in the SVG namespace. *)
Definition svg_tag (s : string) : bool :=
  bool_decide (s = "svg") || startsWith s "svg:".


(** ** Properties *)

Section Stages.

Context (R : Realm).

Lemma startsWith_inv (c : ascii) (s : string) :
  startsWith s (String c EmptyString) = true -> exists rest, s = String c rest.
Proof.
  destruct s as [|a s]; simpl; [discriminate|].
  destruct (ascii_dec c a) as [->|]; [eauto | discriminate].
Qed.

Lemma marker_not_named (s : string) :
  startsWith s "?" = true \/ startsWith s "@" = true -> s ∉ named_intents.
Proof.
  intros [H|H]; apply startsWith_inv in H as [rest ->];
    unfold named_intents; rewrite !elem_of_cons, elem_of_nil;
    intros Hin; repeat destruct Hin as [Hin|Hin]; try discriminate Hin; done.
Qed.

Lemma at_not_question (s : string) :
  startsWith s "@" = true -> startsWith s "?" = false.
Proof. intros H. apply startsWith_inv in H as [rest ->]. reflexivity. Qed.

Lemma key_in_eq (w : World) (node : nat) (e : Element) (k : Key) :
  heap w !! node = Some e -> key_in node k w = (Normal (has_property e k), w).
Proof. intros H. unfold key_in, bind, element, ret. rewrite H. reflexivity. Qed.

(** A key the node knows passes the first stage unchanged. *)
Lemma named_intent_known (w : World) (node : nat) (e : Element) (k : Key)
    (v : value) :
  heap w !! node = Some e -> has_property e k = true ->
  named_intent R node k v w = (Normal (Onward k v), w).
Proof.
  intros H Hk. unfold named_intent, bind. rewrite (key_in_eq _ _ _ _ H), Hk.
  reflexivity.
Qed.

(** So does a key that is none of the six names. *)
Lemma named_intent_other (w : World) (node : nat) (e : Element) (k : Key)
    (v : value) :
  heap w !! node = Some e ->
  (forall s, k = KStr s -> s ∉ named_intents) ->
  named_intent R node k v w = (Normal (Onward k v), w).
Proof.
  intros H Hk. unfold named_intent, bind. rewrite (key_in_eq _ _ _ _ H).
  destruct (has_property e k); [reflexivity|].
  repeat (case_bool_decide;
          [exfalso; eapply Hk; [eassumption|];
           unfold named_intents; set_solver|]).
  reflexivity.
Qed.

Lemma known_property_unknown (w : World) (node : nat) (e : Element) (k : Key)
    (v : value) :
  heap w !! node = Some e -> has_property e k = false ->
  known_property R node k v w = (Normal (Onward k v), w).
Proof.
  intros H Hk. unfold known_property, bind. rewrite (key_in_eq _ _ _ _ H), Hk.
  reflexivity.
Qed.

(** A key that is neither a name of line 53 nor a property of the node
    reaches the prefix switch of line 108 with the world untouched. *)
Lemma resolve_pair_unknown (w : World) (node : nat) (e : Element) (k : Key)
    (v : value) :
  heap w !! node = Some e -> has_property e k = false ->
  (forall s, k = KStr s -> s ∉ named_intents) ->
  resolve_pair R node k v w =
  (let* f := hint_prefix node k v in onward f (by_type R node)) w.
Proof.
  intros H Hk Hn. unfold resolve_pair, bind at 1.
  rewrite (named_intent_other _ _ _ _ _ H Hn). simpl. unfold bind at 1.
  rewrite (known_property_unknown _ _ _ _ _ H Hk). reflexivity.
Qed.

End Stages.

(** *** What the platform primitives do when they accept their arguments *)

Section Primitives.

Context (R : Realm).

Lemma toggleAttribute_valid (w : World) (node : nat) (e : Element)
    (name : string) (force : bool) :
  heap w !! node = Some e -> valid_attribute_name R name = true ->
  toggleAttribute R node name force w =
  (Normal tt,
   mkWorld (<[node := with_attributes e (toggled name force (el_attributes e))]>
              (heap w))
     (journal w ++ [AttributeToggled node name force])).
Proof.
  intros H Hv. unfold toggleAttribute, bind, element, update.
  rewrite H, Hv, H. reflexivity.
Qed.

(** The attribute is there after the call exactly when it was forced on. *)
Lemma toggled_present (name : string) (force : bool) (a : gmap string string) :
  is_Some (toggled name force a !! name) <-> force = true.
Proof.
  unfold toggled. destruct force.
  - destruct (a !! name) eqn:Ha.
    + rewrite Ha. split; [reflexivity | eauto].
    + rewrite lookup_insert_eq. split; [reflexivity | eauto].
  - rewrite lookup_delete_eq. split; [intros [? ?]; discriminate | discriminate].
Qed.

Lemma setAttribute_valid (w : World) (node : nat) (e : Element)
    (name : string) (v : value) (s : string) :
  heap w !! node = Some e -> valid_attribute_name R name = true ->
  to_string R v = Normal s ->
  setAttribute R node (KStr name) v w =
  (Normal tt,
   mkWorld (<[node := with_attributes e (<[name := s]> (el_attributes e))]>
              (heap w))
     (journal w ++ [AttributeSet node name s])).
Proof.
  intros H Hv Hs. unfold setAttribute, bind, element, update, lift. simpl.
  rewrite H, Hs, Hv, H. reflexivity.
Qed.

Lemma addEventListener_object (w : World) (node : nat) (e : Element)
    (type : string) (callback : value) (rest : list value) :
  heap w !! node = Some e -> is_object callback = true ->
  addEventListener node type (callback :: rest) w =
  (Normal tt,
   mkWorld (<[node := with_listeners e
                        (el_listeners e ++ [(type, callback, head rest)])]>
              (heap w))
     (journal w ++ [ListenerAdded node type callback (head rest)])).
Proof.
  intros H Ho. unfold addEventListener, bind, element, update.
  rewrite H. destruct callback; try discriminate Ho; simpl; rewrite H;
    reflexivity.
Qed.

End Primitives.

(** *** The [?] and [@] prefixes *)

Section Prefixes.

Context (R : Realm) (w : World) (node : nat) (e : Element).
Hypothesis Hnode : heap w !! node = Some e.

(** C4.  A key that starts with [?] and is no property of the node: the
    value is coerced to a boolean, the marker is stripped, the [@] case
    hands both on (a boolean is no array), and the resolution of the pair
    is the toggle of the attribute named by the stripped key; where the
    platform accepts that name, the attribute is present afterwards exactly
    when the value was truthy, and the properties and listeners of the node
    are as before. *)
Theorem question_key_toggles (s : string) (v : value) :
  has_property e (KStr s) = false ->
  startsWith s "?" = true ->
  hint_prefix node (KStr s) v w =
    (Normal (Onward (KStr (slice 1 s)) (VBool (truthy v))), w)
  /\ resolve_pair R node (KStr s) v w =
     toggleAttribute R node (slice 1 s) (truthy v) w
  /\ (valid_attribute_name R (slice 1 s) = true ->
      exists e',
        resolve_pair R node (KStr s) v w =
        (Normal tt,
         mkWorld (<[node := e']> (heap w))
           (journal w ++ [AttributeToggled node (slice 1 s) (truthy v)]))
        /\ (is_Some (el_attributes e' !! slice 1 s) <-> truthy v = true)
        /\ el_props e' = el_props e
        /\ el_listeners e' = el_listeners e).
Proof.
  intros Hk Hq.
  assert (Hp : hint_prefix node (KStr s) v w =
               (Normal (Onward (KStr (slice 1 s)) (VBool (truthy v))), w)).
  { unfold hint_prefix. rewrite Hq. reflexivity. }
  assert (Hr : resolve_pair R node (KStr s) v w =
               toggleAttribute R node (slice 1 s) (truthy v) w).
  { rewrite (resolve_pair_unknown R _ _ _ _ _ Hnode Hk).
    - unfold bind. rewrite Hp. reflexivity.
    - intros s' [= <-]. apply marker_not_named. auto. }
  split; [exact Hp|]. split; [exact Hr|].
  intros Hv. eexists. split; [|split; [|split]].
  - rewrite Hr. eapply toggleAttribute_valid; eassumption.
  - apply toggled_present.
  - reflexivity.
  - reflexivity.
Qed.

(** C6.  A key that starts with [@] and is no property of the node: with
    an array value the pair is the native registration call on the
    stripped key with the elements of the array as its further arguments,
    so that the first element is registered as the listener and the next
    one as its options; a callable value, or an object with a callable
    [handleEvent], is registered under the stripped key without options. *)
Theorem at_key_registers (s : string) (v : value) :
  has_property e (KStr s) = false ->
  startsWith s "@" = true ->
  (forall items, v = VArray items ->
     resolve_pair R node (KStr s) v w =
     addEventListener node (slice 1 s) items w)
  /\ (forall listener options,
        v = VArray (listener :: options) -> is_object listener = true ->
        resolve_pair R node (KStr s) v w =
        (Normal tt,
         mkWorld
           (<[node := with_listeners e
                        (el_listeners e ++
                         [(slice 1 s, listener, head options)])]> (heap w))
           (journal w ++
            [ListenerAdded node (slice 1 s) listener (head options)])))
  /\ (typeof v = TFunction
      \/ (typeof v = TObject /\ isArray v = false
          /\ typeof (get v (KStr "handleEvent")) = TFunction) ->
      resolve_pair R node (KStr s) v w =
      (Normal tt,
       mkWorld
         (<[node := with_listeners e (el_listeners e ++ [(slice 1 s, v, None)])]>
            (heap w))
         (journal w ++ [ListenerAdded node (slice 1 s) v None]))).
Proof.
  intros Hk Ha.
  assert (Hn : forall s', KStr s = KStr s' -> s' ∉ named_intents).
  { intros s' [= <-]. apply marker_not_named. auto. }
  pose proof (at_not_question _ Ha) as Hq.
  assert (Harr : forall items, v = VArray items ->
            resolve_pair R node (KStr s) v w =
            addEventListener node (slice 1 s) items w).
  { intros items ->. rewrite (resolve_pair_unknown R _ _ _ _ _ Hnode Hk Hn).
    unfold bind at 1, hint_prefix. rewrite Hq, Ha. unfold at_case. simpl.
    unfold bind, lift, ret. destruct (addEventListener _ _ _ _) as [[[]|x] w'];
      reflexivity. }
  split; [exact Harr|]. split.
  - intros listener options Hv Ho. rewrite (Harr _ Hv).
    apply addEventListener_object; assumption.
  - intros Hv. rewrite (resolve_pair_unknown R _ _ _ _ _ Hnode Hk Hn).
    unfold bind at 1, hint_prefix. rewrite Hq, Ha. unfold at_case.
    destruct Hv as [Hv | (Hv & Hi & Hh)].
    + destruct v as [| | | | | | |[] ?| | |]; try discriminate Hv. simpl.
      apply (addEventListener_object _ _ _ _ _ [] Hnode). reflexivity.
    + rewrite Hi. simpl. unfold by_type. rewrite Hv.
      destruct v as [| | | | | | |[] ?| | |]; try discriminate Hv;
        try discriminate Hi; try discriminate Hh.
      simpl. rewrite bool_decide_eq_false_2 by (rewrite Hh; auto).
      apply (addEventListener_object _ _ _ _ _ [] Hnode). reflexivity.
Qed.

End Prefixes.

(** *** Keys that are properties of the node *)

Section KnownProperty.

Context (R : Realm) (w : World) (node : nat) (e : Element).
Hypothesis Hnode : heap w !! node = Some e.

(** A rejected property write leaves the world as it found it. *)
Lemma set_property_throw_unchanged (k : Key) (v : value) (x : Exn)
    (w' : World) :
  set_property R node k v w = (Throw x, w') -> w' = w.
Proof.
  unfold set_property, bind, element, update, lift, throw. rewrite Hnode.
  destruct (el_props e !! k) as [[[] ?| | |]|]; rewrite ?Hnode;
    try (destruct (to_string R v); rewrite ?Hnode);
    intros H; first [discriminate H | injection H as _ Hw; congruence].
Qed.


End KnownProperty.

(** *** Keys that are neither names of line 53 nor properties *)

Section Fallback.

Context (R : Realm) (w : World) (node : nat) (e : Element).
Hypothesis Hnode : heap w !! node = Some e.

(** C8, as the code has it.  A string key that is none of the six names of
    line 53, no property of the node, and does not start with [?]: with a
    boolean value the pair is the toggle of the attribute named by the key
    (less a leading [@]), which is present afterwards exactly when the
    value was [true] if the platform accepts the name; with [null] or
    [undefined] the world is left as it was. *)
Theorem plain_key_boolean_or_nothing (s : string) (v : value) :
  has_property e (KStr s) = false ->
  s ∉ named_intents ->
  startsWith s "?" = false ->
  let name := if startsWith s "@" then slice 1 s else s in
  (forall b, v = VBool b ->
     resolve_pair R node (KStr s) v w = toggleAttribute R node name b w
     /\ (valid_attribute_name R name = true ->
         exists e',
           resolve_pair R node (KStr s) v w =
           (Normal tt,
            mkWorld (<[node := e']> (heap w))
              (journal w ++ [AttributeToggled node name b]))
           /\ (is_Some (el_attributes e' !! name) <-> b = true)
           /\ el_props e' = el_props e))
  /\ (v = VNull \/ v = VUndefined ->
      resolve_pair R node (KStr s) v w = (Normal tt, w)).
Proof.
  intros Hk Hn Hq name.
  assert (Hn' : forall s', KStr s = KStr s' -> s' ∉ named_intents)
    by (intros s' [= <-]; exact Hn).
  split.
  - intros b ->.
    assert (Hr : resolve_pair R node (KStr s) (VBool b) w =
                 toggleAttribute R node name b w).
    { rewrite (resolve_pair_unknown R _ _ _ _ _ Hnode Hk Hn').
      unfold bind at 1, hint_prefix. rewrite Hq. subst name.
      destruct (startsWith s "@"); reflexivity. }
    split; [exact Hr|]. intros Hv.
    eexists. split; [|split].
    + rewrite Hr. eapply toggleAttribute_valid; eassumption.
    + apply toggled_present.
    + reflexivity.
  - intros Hv. rewrite (resolve_pair_unknown R _ _ _ _ _ Hnode Hk Hn').
    unfold bind at 1, hint_prefix. rewrite Hq.
    destruct Hv as [-> | ->]; destruct (startsWith s "@"); reflexivity.
Qed.

End Fallback.

(** *** The [style] and [aria] names *)

Section NamedIntents.

Context (R : Realm).

(** C2, at the code.  [style] on a node that has no such property: line 68
    reads an identifier that nothing in scope binds.  Where no global of
    that name exists the pair throws a [ReferenceError] and nothing is
    written; where one exists, its truthiness alone chooses between the
    attribute write and the style text, and the style text of a node
    without a [style] property cannot be assigned. *)
Theorem style_intent_reads_unbound_identifier (w : World) (node : nat)
    (e : Element) (v : value) :
  heap w !! node = Some e ->
  has_property e (KStr "style") = false ->
  (globals R !! "isSVG" = None ->
   resolve_pair R node (KStr "style") v w = (Throw ReferenceError, w))
  /\ (forall g, globals R !! "isSVG" = Some g ->
      resolve_pair R node (KStr "style") v w =
      if truthy g then setAttribute R node (KStr "style") v w
      else (Throw TypeError, w)).
Proof.
  intros Hnode Hk.
  assert (Hs : el_props e !! KStr "style" = None).
  { unfold has_property in Hk. apply bool_decide_eq_false_1 in Hk.
    destruct (el_props e !! KStr "style"); [exfalso; eauto | reflexivity]. }
  split.
  - intros Hg. unfold resolve_pair, bind at 1, named_intent, bind at 1.
    rewrite (key_in_eq _ _ _ _ Hnode), Hk. simpl.
    unfold bind, lookup_identifier. rewrite Hg. reflexivity.
  - intros g Hg. unfold resolve_pair, bind at 1, named_intent, bind at 1.
    rewrite (key_in_eq _ _ _ _ Hnode), Hk. simpl.
    unfold bind at 1 2, lookup_identifier. rewrite Hg. unfold ret at 1.
    destruct (truthy g).
    + unfold bind. destruct (setAttribute _ _ _ _ _) as [[[]|x] w'];
        reflexivity.
    + unfold bind, set_style_text, bind, element. rewrite Hnode, Hs.
      reflexivity.
Qed.






End NamedIntents.

(** *** Where the resolution throws *)

Section Throws.

Context (R : Realm) (w : World) (node : nat) (e : Element).
Hypothesis Hnode : heap w !! node = Some e.

(** A symbol key that is no property of the node reaches line 109, where
    [key.startsWith] is not a function. *)
Lemma symbol_key_throws (id : nat) (v : value) :
  has_property e (KSym id) = false ->
  resolve_pair R node (KSym id) v w = (Throw TypeError, w).
Proof.
  intros Hk. rewrite (resolve_pair_unknown R _ _ _ _ _ Hnode Hk);
    [reflexivity | discriminate].
Qed.

(** [aria] with a value that is no object: [Reflect.ownKeys] throws. *)
Lemma aria_of_non_object_throws (v : value) :
  has_property e (KStr "aria") = false -> is_object v = false ->
  resolve_pair R node (KStr "aria") v w = (Throw TypeError, w).
Proof.
  intros Hk Ho. unfold resolve_pair, bind at 1, named_intent, bind at 1.
  rewrite (key_in_eq _ _ _ _ Hnode), Hk.
  rewrite bool_decide_eq_true_2 by reflexivity.
  unfold bind, lift, ownKeys. rewrite Ho. reflexivity.
Qed.

(** A symbol value under a plain string key reaches the attribute write of
    line 147, which cannot convert it to a string. *)
Lemma symbol_value_throws (s : string) (id : nat) :
  has_property e (KStr s) = false -> s ∉ named_intents ->
  startsWith s "?" = false -> startsWith s "@" = false ->
  resolve_pair R node (KStr s) (VSymbol id) w = (Throw TypeError, w).
Proof.
  intros Hk Hn Hq Ha.
  rewrite (resolve_pair_unknown R _ _ _ _ _ Hnode Hk)
    by (intros s' [= <-]; exact Hn).
  unfold bind at 1, hint_prefix. rewrite Hq, Ha.
  unfold ret, onward, by_type, typeof, setAttribute, bind, element, lift.
  rewrite Hnode. reflexivity.
Qed.

End Throws.

(** *** The return value *)

Section ReturnValue.

Context (R : Realm).

(** After line 18: the bag has been read once, and the document is the
    chosen one. *)
Lemma line_18 (options : Bag) (w : World) :
  let w1 := mkWorld (heap w) (journal w ++ [OptionRead (KStr "document")]) in
  choose_document R options w =
  match chosen_document R options with
  | Some doc => (Normal doc, w1)
  | None => (Throw ReferenceError, w1)
  end.
Proof.
  unfold choose_document, chosen_document, bind, read, bind, record, ret,
    lookup_identifier.
  simpl. destruct (truthy _); [reflexivity|].
  destruct (globals R !! "document"); reflexivity.
Qed.

(** The node provider either takes the [null] path, on a selector that
    misses and having done nothing but read [document], or else throws or
    provides a node. *)
Lemma provide_cases (tag : Tag) (options : Bag) (w : World) :
  (selector_misses R tag options
   /\ provide R tag options w =
      (Normal None,
       mkWorld (heap w) (journal w ++ [OptionRead (KStr "document")])))
  \/ (~ selector_misses R tag options
      /\ ((exists x w', provide R tag options w = (Throw x, w'))
          \/ (exists custom node w',
                provide R tag options w = (Normal (Some (custom, node)), w')))).
Proof.
  destruct (provide R tag options w) as [c w'] eqn:Hp.
  unfold provide in Hp. unfold bind at 1 in Hp. rewrite line_18 in Hp.
  destruct (chosen_document R options) as [doc|] eqn:Hdoc.
  2:{ injection Hp as <- <-. right. split; [|left; eauto].
      intros (s & d & _ & _ & Hc & _). congruence. }
  destruct tag as [s|r].
  2:{ injection Hp as <- <-. right. split; [|right; eauto].
      intros (s & d & Ht & _). discriminate Ht. }
  destruct (startsWith s "<") eqn:Hs.
  - unfold bind, as_document, lift, ret, throw in Hp.
    destruct doc as [| | | | | | | | | |d];
      try (injection Hp as <- <-; right; split; [|left; eauto];
           intros (s' & d' & Ht & _ & Hc & _); congruence).
    destruct (doc_querySelector (document_of R d) (slice 1 s))
      as [[r|]|x] eqn:Hq; injection Hp as <- <-.
    + right. split; [|right; eauto].
      intros (s' & d' & Ht & _ & Hc & Hq'). congruence.
    + left. split; [|reflexivity]. exists s, d. auto.
    + right. split; [|left; eauto].
      intros (s' & d' & Ht & _ & Hc & Hq'). congruence.
  - right. split.
    { intros (s' & d' & Ht & Hs' & _). congruence. }
    unfold bind, as_document, lift, read, bind, record, ret, throw, allocate
      in Hp.
    destruct (_ || _).
    + destruct doc as [| | | | | | | | | |d];
        try (injection Hp as <- <-; left; eauto; fail).
      destruct (doc_createElementNS _ _ _); injection Hp as <- <-;
        [right|left]; eauto.
    + simpl in Hp.
      destruct (truthy _); simpl in Hp;
        (destruct doc as [| | | | | | | | | |d];
           try (injection Hp as <- <-; left; eauto; fail));
        destruct (doc_createElement _ _ _); injection Hp as <- <-;
        [right|left|right|left]; eauto.
Qed.

(** C10.  A selector that misses: the call returns [null] with the heap
    as it was, and the journal shows one read of the bag, of [document],
    and nothing else: no option key was resolved and no child appended. *)
Theorem null_path_is_atomic (tag : Tag) (options : option Bag)
    (childNodes : list value) (w : World) :
  selector_misses R tag (default [] options) ->
  configure R tag options childNodes w =
  (Normal VNull,
   mkWorld (heap w) (journal w ++ [OptionRead (KStr "document")])).
Proof.
  intros Hmiss. unfold configure, bind.
  destruct (provide_cases tag (default [] options) w) as [[_ ->]|[Hn _]];
    [reflexivity | contradiction].
Qed.

(** C3, as the code has it.  The call returns [null] exactly on a selector
    that misses; on every other input it either throws, or returns the
    provided node after the options were resolved on it and the children,
    if any, appended to it. *)
Theorem null_iff_selector_misses (tag : Tag) (options : option Bag)
    (childNodes : list value) (w : World) :
  (fst (configure R tag options childNodes w) = Normal VNull
   <-> selector_misses R tag (default [] options))
  /\ (~ selector_misses R tag (default [] options) ->
      (exists x, fst (configure R tag options childNodes w) = Throw x)
      \/ (exists custom node w1 w2 w3,
            provide R tag (default [] options) w =
              (Normal (Some (custom, node)), w1)
            /\ resolve R node custom (default [] options) w1 = (Normal tt, w2)
            /\ match childNodes with
               | [] => w3 = w2
               | _ => append R node childNodes w2 = (Normal tt, w3)
               end
            /\ configure R tag options childNodes w = (Normal (VNode node), w3))).
Proof.
  assert (Hrun : ~ selector_misses R tag (default [] options) ->
    (exists x, fst (configure R tag options childNodes w) = Throw x)
    \/ (exists custom node w1 w2 w3,
          provide R tag (default [] options) w =
            (Normal (Some (custom, node)), w1)
          /\ resolve R node custom (default [] options) w1 = (Normal tt, w2)
          /\ match childNodes with
             | [] => w3 = w2
             | _ => append R node childNodes w2 = (Normal tt, w3)
             end
          /\ configure R tag options childNodes w = (Normal (VNode node), w3))).
  { intros Hn. unfold configure, bind.
    destruct (provide_cases tag (default [] options) w)
      as [[Hm _]|[_ [(x & w' & ->)|(custom & node & w1 & Hp)]]];
      [contradiction | left; eauto |].
    rewrite Hp.
    destruct (resolve R node custom (default [] options) w1)
      as [[[]|x] w2] eqn:Hres; [|left; eauto].
    destruct childNodes as [|c cs].
    - right. exists custom, node, w1, w2, w2. auto.
    - destruct (append R node (c :: cs) w2) as [[[]|x] w3] eqn:Happ;
        [|left; eauto].
      right. exists custom, node, w1, w2, w3. auto. }
  split; [|exact Hrun]. split.
  - intros Hnull.
    destruct (provide_cases tag (default [] options) w) as [[Hm _]|[Hn _]];
      [exact Hm|].
    destruct (Hrun Hn) as [(x & Hx)|(c & n & w1 & w2 & w3 & _ & _ & _ & Hc)].
    + rewrite Hx in Hnull. discriminate Hnull.
    + rewrite Hc in Hnull. discriminate Hnull.
  - intros Hm. unfold configure, bind.
    destruct (provide_cases tag (default [] options) w) as [[_ ->]|[Hn _]];
      [reflexivity | contradiction].
Qed.

End ReturnValue.

(** *** One category of mutation per pair *)

Section Only.

Context (x : bool) (c : Category).

Lemma only_quiet {A} (m : M A) (w : World) : snd (m w) = w -> only x c m w.
Proof. intros H. exists []. rewrite H, app_nil_r. auto. Qed.

Lemma only_bind {A B} (m : M A) (k : A -> M B) (w : World) :
  only x c m w ->
  (forall a w1, m w = (Normal a, w1) -> only x c (k a) w1) ->
  only x c (bind m k) w.
Proof.
  intros (evs & Hj & He) Hk. unfold only, bind.
  destruct (m w) as [[a|e] w1] eqn:Hm; simpl in *.
  - destruct (Hk a w1 eq_refl) as (evs' & Hj' & He').
    exists (evs ++ evs')%list. rewrite Hj', Hj, app_assoc. split; [reflexivity|].
    apply Forall_app; auto.
  - exists evs. auto.
Qed.

Lemma only_update (r : nat) (f : Element -> Element) (ev : Event) (w : World) :
  category_of x ev = Some c -> only x c (update r f ev) w.
Proof.
  intros Hc. unfold only, update. destruct (heap w !! r); simpl.
  - exists [ev]. auto.
  - exists []. rewrite app_nil_r. auto.
Qed.

Lemma only_element (r : nat) (w : World) : only x c (element r) w.
Proof. apply only_quiet. unfold element. destruct (heap w !! r); reflexivity. Qed.

Lemma only_lift {A} (o : Completion A) (w : World) : only x c (lift o) w.
Proof. apply only_quiet. reflexivity. Qed.

Lemma only_ret {A} (a : A) (w : World) : only x c (ret a) w.
Proof. apply only_quiet. reflexivity. Qed.

Lemma only_throw {A} (e : Exn) (w : World) : only x c (throw (A := A) e) w.
Proof. apply only_quiet. reflexivity. Qed.

Lemma only_for_each {A} (l : list A) (body : A -> M unit) :
  (forall a w, only x c (body a) w) ->
  forall w, only x c (for_each l body) w.
Proof.
  intros Hb. induction l as [|a l IH]; intros w; simpl.
  - apply only_ret.
  - apply only_bind; [apply Hb | intros _ w1 _; apply IH].
Qed.

End Only.

Ltac only_step :=
  first
    [ apply only_bind; [|intros ? ? _]
    | apply only_update; reflexivity
    | apply only_element | apply only_lift | apply only_ret
    | apply only_throw ].

Section OnlyPrimitives.

Context (R : Realm) (r : nat).

Lemma only_setAttribute (x : bool) (k : Key) (v : value) (w : World) :
  only x (if x then AriaExpansion else AttributeWrite)
    (setAttribute R r k v) w.
Proof.
  unfold setAttribute. repeat only_step.
  destruct (valid_attribute_name R _); only_step.
Qed.

Lemma only_toggleAttribute (name : string) (force : bool) (w : World) :
  only false AttributeWrite (toggleAttribute R r name force) w.
Proof.
  unfold toggleAttribute. repeat only_step.
  destruct (valid_attribute_name R _); only_step.
Qed.

Lemma only_set_style_text (x : bool) (v : value) (w : World) :
  only x PropertyWrite (set_style_text R r v) w.
Proof.
  unfold set_style_text. repeat only_step.
  destruct (el_props _ !! _) as [[]|]; repeat only_step.
Qed.

Lemma only_set_property (x : bool) (k : Key) (v : value) (w : World) :
  only x PropertyWrite (set_property R r k v) w.
Proof.
  unfold set_property. repeat only_step.
  destruct (el_props _ !! _) as [[[]| | |]|]; repeat only_step.
Qed.

Lemma only_dataset_assign (x : bool) (v : value) (w : World) :
  only x DatasetMerge (dataset_assign R r v) w.
Proof.
  unfold dataset_assign. repeat only_step.
  destruct (el_props _ !! _) as [[]|]; try only_step.
  apply only_for_each. intros [k y] w'. unfold dataset_put. simpl.
  destruct k; repeat only_step.
  destruct (valid_dataset_name R _); repeat only_step.
  destruct (el_props _ !! _) as [[]|]; repeat only_step.
Qed.

Lemma only_classList_add (x : bool) (v : value) (w : World) :
  only x ClassListAddition (classList_add R r v) w.
Proof.
  unfold classList_add. repeat only_step.
  destruct (el_props _ !! _) as [[]|]; repeat only_step.
Qed.

Lemma only_addEventListener (x : bool) (type : string) (args : list value)
    (w : World) :
  only x ListenerRegistration (addEventListener r type args) w.
Proof.
  unfold addEventListener. repeat only_step.
  destruct args as [|cb rest]; [only_step|].
  destruct cb; simpl; repeat only_step.
Qed.

End OnlyPrimitives.

Section OneCategory.

Context (R : Realm) (node : nat) (e : Element).

Lemma only_ext {A} (x : bool) (c : Category) (m m' : M A) (w : World) :
  m w = m' w -> only x c m' w -> only x c m w.
Proof. unfold only. intros ->. auto. Qed.

Lemma finishes_then_continue (x : bool) (c : Category) (m : M unit)
    (w : World) :
  only x c m w -> finishes x (m ;; ret Continue) w.
Proof.
  intros Hm. exists c. split.
  - apply only_bind; [exact Hm | intros; apply only_ret].
  - unfold bind, ret. destruct (m w) as [[a|y] w']; simpl; congruence.
Qed.

Lemma finishes_throw (x : bool) (y : Exn) (w : World) :
  finishes x (throw y) w.
Proof.
  exists Ignored. split; [apply only_throw | simpl; congruence].
Qed.

Lemma finishes_ext (x : bool) (m m' : M Flow) (w : World) :
  m w = m' w -> finishes x m' w -> finishes x m w.
Proof.
  intros Heq (c & Ho & Hf). exists c. split.
  - exact (only_ext _ _ _ _ _ Heq Ho).
  - rewrite Heq. exact Hf.
Qed.

(** Lines 51-85: the pair is handed on with the world untouched (and is
    then no ARIA expansion), or it is finished. *)
Lemma named_intent_cases (k : Key) (v : value) (w : World) :
  heap w !! node = Some e ->
  (exists k', named_intent R node k v w = (Normal (Onward k' v), w)
              /\ expands_aria e k = false)
  \/ finishes (expands_aria e k) (named_intent R node k v) w.
Proof.
  intros Hnode. unfold expands_aria.
  destruct (has_property e k) eqn:Hk.
  { left. exists k. rewrite (named_intent_known R _ _ _ _ _ Hnode Hk).
    rewrite andb_false_r. auto. }
  assert (Heq : forall m : M Flow,
            (let* known := key_in node k in
             if known then ret (Onward k v) else m) w = m w).
  { intros m. unfold bind. rewrite (key_in_eq _ _ _ _ Hnode), Hk.
    reflexivity. }
  unfold named_intent. case_bool_decide as Haria.
  { right. eapply finishes_ext; [apply Heq|].
    destruct (ownKeys v) as [ks|y].
    - apply (finishes_ext _ _
               (for_each ks
                  (fun k0 =>
                     let* name := lift (aria_name k0) in
                     setAttribute R node name (get v k0)) ;;
                ret Continue)); [reflexivity|].
      apply (finishes_then_continue true AriaExpansion).
      apply only_for_each. intros a w'.
      apply only_bind; [apply only_lift|]. intros name w1 _.
      apply (only_setAttribute R node true).
    - apply (finishes_ext _ _ (throw y)); [reflexivity|].
      apply finishes_throw. }
  rewrite andb_false_l.
  case_bool_decide as Hdata.
  { right. eapply finishes_ext; [apply Heq|].
    apply (finishes_then_continue false DatasetMerge).
    apply only_dataset_assign. }
  case_bool_decide as Hstyle.
  { right. eapply finishes_ext; [apply Heq|].
    unfold lookup_identifier.
    destruct (globals R !! "isSVG") as [g|].
    - destruct (truthy g) eqn:Hg.
      + eapply finishes_ext;
          [|apply (finishes_then_continue false AttributeWrite);
            apply (only_setAttribute R node false (KStr "style") v)].
        unfold bind at 1, ret at 1. rewrite Hg. reflexivity.
      + eapply finishes_ext;
          [|apply (finishes_then_continue false PropertyWrite);
            apply (only_set_style_text R node false v)].
        unfold bind at 1, ret at 1. rewrite Hg. reflexivity.
    - eapply finishes_ext; [|apply (finishes_throw _ ReferenceError)].
      reflexivity. }
  left. unfold bind. rewrite (key_in_eq _ _ _ _ Hnode), Hk.
  repeat case_bool_decide; eauto.
Qed.

(** Lines 87-105. *)
Lemma known_property_cases (k : Key) (v : value) (w : World) :
  heap w !! node = Some e ->
  known_property R node k v w = (Normal (Onward k v), w)
  \/ finishes false (known_property R node k v) w.
Proof.
  intros Hnode. destruct (has_property e k) eqn:Hk.
  2:{ left. apply (known_property_unknown R _ _ _ _ _ Hnode Hk). }
  right.
  assert (Heq : forall m : M unit,
            known_property R node k v w = (m ;; ret Continue) w ->
            forall c, only false c m w ->
            finishes false (known_property R node k v) w).
  { intros m Hm c Hc. eapply finishes_ext; [exact Hm|].
    apply (finishes_then_continue false c). exact Hc. }
  case (decide (k = KStr "classList")) as [Hc|Hc].
  - apply (Heq (classList_add R node v)) with (c := ClassListAddition).
    + unfold known_property, bind at 1.
      rewrite (key_in_eq _ _ _ _ Hnode), Hk.
      rewrite bool_decide_eq_true_2 by exact Hc. reflexivity.
    + apply only_classList_add.
  - assert (Hm : known_property R node k v w =
                 (try_catch (set_property R node k v) (setAttribute R node k v)
                  ;; ret Continue) w).
    { unfold known_property, bind at 1.
      rewrite (key_in_eq _ _ _ _ Hnode), Hk.
      rewrite bool_decide_eq_false_2 by exact Hc. reflexivity. }
    destruct (set_property R node k v w) as [[[]|y] w'] eqn:Hs.
    + apply (Heq _ Hm PropertyWrite).
      eapply only_ext; [|apply (only_set_property R node false k v)].
      unfold try_catch. rewrite Hs. reflexivity.
    + apply (Heq _ Hm AttributeWrite).
      eapply only_ext; [|apply (only_setAttribute R node false k v)].
      unfold try_catch. rewrite Hs.
      rewrite (set_property_throw_unchanged R _ _ _ Hnode _ _ _ _ Hs).
      reflexivity.
Qed.

(** Lines 108-120. *)
Lemma hint_prefix_cases (k : Key) (v : value) (w : World) :
  (exists k' v', hint_prefix node k v w = (Normal (Onward k' v'), w))
  \/ finishes false (hint_prefix node k v) w.
Proof.
  unfold hint_prefix. destruct k as [s|id]; [|right; apply finishes_throw].
  assert (Hat : forall v0,
    (exists k' v', at_case node s v0 w = (Normal (Onward k' v'), w))
    \/ finishes false (at_case node s v0) w).
  { intros v0. unfold at_case.
    destruct v0 as [| | | | | | | |items| |]; simpl; try (left; eauto; fail).
    right.
    apply (finishes_ext _ _
             (addEventListener node (slice 1 s) items ;; ret Continue));
      [reflexivity|].
    apply (finishes_then_continue false ListenerRegistration).
    apply only_addEventListener. }
  destruct (startsWith s "?"); [apply Hat|].
  destruct (startsWith s "@"); [apply Hat|]. left. eauto.
Qed.

(** Lines 123-147. *)
Lemma by_type_category (k : Key) (v : value) (w : World) :
  exists c, only false c (by_type R node k v) w.
Proof.
  unfold by_type. destruct (typeof v).
  - destruct (negb (truthy v)); [exists Ignored; apply only_ret|].
    case_bool_decide.
    + exists AttributeWrite. apply only_bind; [apply only_lift|].
      intros json w1 _. apply (only_setAttribute R node false).
    + exists ListenerRegistration. destruct k; [|apply only_throw].
      apply only_addEventListener.
  - destruct (negb (truthy v)); [exists Ignored; apply only_ret|].
    case_bool_decide.
    + exists AttributeWrite. apply only_bind; [apply only_lift|].
      intros json w1 _. apply (only_setAttribute R node false).
    + exists ListenerRegistration. destruct k; [|apply only_throw].
      apply only_addEventListener.
  - exists AttributeWrite. destruct k; [|apply only_throw].
    apply only_toggleAttribute.
  - exists AttributeWrite. apply (only_setAttribute R node false).
  - exists AttributeWrite. apply (only_setAttribute R node false).
  - exists AttributeWrite. apply (only_setAttribute R node false).
  - exists AttributeWrite. apply (only_setAttribute R node false).
  - exists ListenerRegistration. destruct k; [|apply only_throw].
    apply only_addEventListener.
Qed.

Lemma finished_pair (x : bool) (m : M Flow) (next : Key -> value -> M unit)
    (w : World) :
  finishes x m w -> exists c, only x c (let* f := m in onward f next) w.
Proof.
  intros (c & Ho & Hf). exists c. apply only_bind; [exact Ho|].
  intros f w1 Hm. rewrite (Hf f) by (rewrite Hm; reflexivity).
  apply only_ret.
Qed.

Lemma handed_on (m : M Flow) (next : Key -> value -> M unit) (w : World)
    (k : Key) (v : value) :
  m w = (Normal (Onward k v), w) ->
  (let* f := m in onward f next) w = next k v w.
Proof. intros Hm. unfold bind. rewrite Hm. reflexivity. Qed.

(** Whatever the pair and whether or not its resolution throws, the
    mutations it journals are of one category. *)
Lemma resolve_pair_one_category (k : Key) (v : value) (w : World) :
  heap w !! node = Some e ->
  exists c, only (expands_aria e k) c (resolve_pair R node k v) w.
Proof.
  intros Hnode.
  pose (stage3 := fun key value =>
          let* f := hint_prefix node key value in onward f (by_type R node)).
  pose (stage2 := fun key value =>
          let* f := known_property R node key value in onward f stage3).
  change (resolve_pair R node k v)
    with (let* f := named_intent R node k v in onward f stage2).
  destruct (named_intent_cases k v w Hnode) as [(k1 & H1 & ->)|H1];
    [|apply finished_pair; exact H1].
  assert (E1 : forall c, only false c (stage2 k1 v) w ->
            only false c
              (let* f := named_intent R node k v in onward f stage2) w).
  { intros c. apply only_ext. apply (handed_on _ stage2 _ _ _ H1). }
  destruct (known_property_cases k1 v w Hnode) as [H2|H2].
  2:{ destruct (finished_pair false _ stage3 w H2) as (c & Hc).
      exists c. apply E1. exact Hc. }
  assert (E2 : forall c, only false c (stage3 k1 v) w ->
            only false c (stage2 k1 v) w).
  { intros c. apply only_ext. apply (handed_on _ stage3 _ _ _ H2). }
  destruct (hint_prefix_cases k1 v w) as [(k3 & v3 & H3)|H3].
  2:{ destruct (finished_pair false _ (by_type R node) w H3) as (c & Hc).
      exists c. apply E1, E2. exact Hc. }
  destruct (by_type_category k3 v3 w) as (c & Hc).
  exists c. apply E1, E2. eapply only_ext; [|exact Hc].
  apply (handed_on _ (by_type R node) _ _ _ H3).
Qed.

(** C5, as the code has it.  The mutations a pair journals, whether its
    resolution completes or throws, are all of one category; and when the
    resolution completes, exactly one of the seven outcomes is the pair's:
    silent ignoring if it journalled nothing, the category of its
    mutations otherwise. *)
Theorem one_outcome_per_completed_pair (k : Key) (v : value) (w : World)
    (evs : list Event) :
  heap w !! node = Some e ->
  journal (snd (resolve_pair R node k v w)) = (journal w ++ evs)%list ->
  (exists c, Forall (fun ev => category_of (expands_aria e k) ev = Some c) evs)
  /\ (fst (resolve_pair R node k v w) = Normal tt ->
      exists! c, outcome (expands_aria e k) evs c).
Proof.
  intros Hnode Hj.
  destruct (resolve_pair_one_category k v w Hnode) as (c & evs' & Hj' & Hc).
  rewrite Hj in Hj'. apply app_inv_head in Hj'. subst evs'.
  split; [eauto|]. intros _.
  destruct evs as [|ev evs].
  - exists Ignored. split; [reflexivity|]. intros c' Hc'. symmetry. exact Hc'.
  - exists c. split; [exact Hc|]. intros c' Hc'. simpl in Hc'.
    apply Forall_cons in Hc as [Hc _]. apply Forall_cons in Hc' as [Hc' _].
    congruence.
Qed.

End OneCategory.

(** *** Pairs whose resolution completes *)

Section Accepted.

Context (R : Realm).

Context (node : nat).









End Accepted.

(** *** The property surface is stable *)

Section Keeps.

Context (R : Realm) (node : nat).

Lemma same_surface_refl (e : Element) : same_surface e e.
Proof. intros k. reflexivity. Qed.

Lemma same_surface_trans (e1 e2 e3 : Element) :
  same_surface e1 e2 -> same_surface e2 e3 -> same_surface e1 e3.
Proof. intros H12 H23 k. rewrite H12. apply H23. Qed.



Lemma same_surface_insert (e : Element) (k : Key) (old new : Slot) :
  el_props e !! k = Some old -> kind new = kind old ->
  same_surface e (with_props e (<[k := new]> (el_props e))).
Proof.
  intros Hold Hkind k'. simpl. destruct (decide (k = k')) as [<-|Hne].
  - rewrite lookup_insert_eq, Hold. simpl. congruence.
  - rewrite lookup_insert_ne by exact Hne. reflexivity.
Qed.

Lemma keeps_quiet {A} (m : M A) (w : World) :
  heap (snd (m w)) = heap w -> keeps node m w.
Proof.
  intros Hq e He. exists e. rewrite Hq. split; [exact He|].
  apply same_surface_refl.
Qed.

Lemma keeps_bind {A B} (m : M A) (k : A -> M B) (w : World) :
  keeps node m w ->
  (forall a w1, m w = (Normal a, w1) -> keeps node (k a) w1) ->
  keeps node (bind m k) w.
Proof.
  intros Hm Hk e He. destruct (Hm e He) as (e1 & He1 & H1). unfold bind.
  destruct (m w) as [[a|y] w1] eqn:Hmw; simpl in *.
  - destruct (Hk a w1 eq_refl e1 He1) as (e2 & He2 & H2).
    exists e2. split; [exact He2|]. exact (same_surface_trans _ _ _ H1 H2).
  - eauto.
Qed.

Lemma keeps_try_catch {A} (m h : M A) (w : World) :
  keeps node m w ->
  (forall y w1, m w = (Throw y, w1) -> keeps node h w1) ->
  keeps node (try_catch m h) w.
Proof.
  intros Hm Hh e He. destruct (Hm e He) as (e1 & He1 & H1). unfold try_catch.
  destruct (m w) as [[a|y] w1] eqn:Hmw; simpl in *.
  - eauto.
  - destruct (Hh y w1 eq_refl e1 He1) as (e2 & He2 & H2).
    exists e2. split; [exact He2|]. exact (same_surface_trans _ _ _ H1 H2).
Qed.

Lemma keeps_for_each {A} (l : list A) (body : A -> M unit) :
  (forall a w, keeps node (body a) w) ->
  forall w, keeps node (for_each l body) w.
Proof.
  intros Hb. induction l as [|a l IH]; intros w; simpl.
  - apply keeps_quiet. reflexivity.
  - apply keeps_bind; [apply Hb | intros _ w1 _; apply IH].
Qed.

Lemma keeps_ret {A} (a : A) (w : World) : keeps node (ret a) w.
Proof. apply keeps_quiet. reflexivity. Qed.

Lemma keeps_throw {A} (y : Exn) (w : World) : keeps node (throw (A := A) y) w.
Proof. apply keeps_quiet. reflexivity. Qed.

Lemma keeps_lift {A} (o : Completion A) (w : World) : keeps node (lift o) w.
Proof. apply keeps_quiet. reflexivity. Qed.

Lemma keeps_element (r : nat) (w : World) : keeps node (element r) w.
Proof.
  apply keeps_quiet. unfold element. destruct (heap w !! r); reflexivity.
Qed.

Lemma keeps_lookup_identifier (name : string) (w : World) :
  keeps node (lookup_identifier R name) w.
Proof.
  apply keeps_quiet. unfold lookup_identifier.
  destruct (globals R !! name); reflexivity.
Qed.

Lemma keeps_key_in (k : Key) (w : World) : keeps node (key_in node k) w.
Proof.
  apply keeps_quiet. unfold key_in, bind, element.
  destruct (heap w !! node); reflexivity.
Qed.

Lemma key_in_inv (k : Key) (w w1 : World) (b : bool) :
  key_in node k w = (Normal b, w1) ->
  w1 = w /\ exists e, heap w !! node = Some e /\ b = has_property e k.
Proof.
  unfold key_in, bind, element, ret.
  destruct (heap w !! node) as [e|] eqn:He; [|discriminate].
  intros [= <- <-]. eauto.
Qed.

(** An update that keeps the surface of the element it finds. *)
Lemma keeps_update (f : Element -> Element) (ev : Event) (w : World) :
  (forall e, heap w !! node = Some e -> same_surface e (f e)) ->
  keeps node (update node f ev) w.
Proof.
  intros Hf e He. unfold update. rewrite He. simpl.
  rewrite lookup_insert_eq. eauto.
Qed.

Lemma keeps_setAttribute (k : Key) (v : value) (w : World) :
  keeps node (setAttribute R node k v) w.
Proof.
  unfold setAttribute.
  apply keeps_bind; [apply keeps_element|]. intros _ w1 _.
  apply keeps_bind; [apply keeps_lift|]. intros n w2 _.
  apply keeps_bind; [apply keeps_lift|]. intros s w3 _.
  destruct (valid_attribute_name R n); [|apply keeps_throw].
  apply keeps_update. intros e _ k0. reflexivity.
Qed.

Lemma keeps_toggleAttribute (name : string) (force : bool) (w : World) :
  keeps node (toggleAttribute R node name force) w.
Proof.
  unfold toggleAttribute.
  apply keeps_bind; [apply keeps_element|]. intros _ w1 _.
  destruct (valid_attribute_name R name); [|apply keeps_throw].
  apply keeps_update. intros e _ k0. reflexivity.
Qed.

Lemma keeps_addEventListener (type : string) (args : list value) (w : World) :
  keeps node (addEventListener node type args) w.
Proof.
  unfold addEventListener.
  apply keeps_bind; [apply keeps_element|]. intros _ w1 _.
  destruct args as [|cb rest]; [apply keeps_throw|].
  destruct cb; simpl; try apply keeps_ret; try apply keeps_throw;
    apply keeps_update; intros e _ k0; reflexivity.
Qed.

Lemma element_inv (w w1 : World) (e : Element) :
  element node w = (Normal e, w1) -> w1 = w /\ heap w !! node = Some e.
Proof.
  unfold element. destruct (heap w !! node) eqn:He; [|discriminate].
  intros [= <- <-]. auto.
Qed.

Lemma lift_inv {A} (o : Completion A) (a : A) (w w1 : World) :
  lift o w = (Normal a, w1) -> w1 = w.
Proof. unfold lift. intros [= _ <-]. reflexivity. Qed.

Lemma keeps_set_style_text (v : value) (w : World) :
  keeps node (set_style_text R node v) w.
Proof.
  unfold set_style_text.
  apply keeps_bind; [apply keeps_element|]. intros e w1 He.
  apply element_inv in He as [-> He].
  destruct (el_props e !! KStr "style") as [[]|] eqn:Hs;
    try apply keeps_throw.
  apply keeps_bind; [apply keeps_lift|]. intros s w2 Hl.
  apply lift_inv in Hl as ->.
  apply keeps_update. intros e0 He0. assert (e0 = e) as -> by congruence.
  eapply same_surface_insert; [exact Hs | reflexivity].
Qed.

Lemma keeps_dataset_put (kx : Key * value) (w : World) :
  keeps node (dataset_put R node kx) w.
Proof.
  unfold dataset_put. destruct (fst kx) as [name|id]; [|apply keeps_ret].
  apply keeps_bind; [apply keeps_lift|]. intros s w1 Hl.
  apply lift_inv in Hl as ->.
  destruct (valid_dataset_name R name); [|apply keeps_throw].
  apply keeps_bind; [apply keeps_element|]. intros e w1 He.
  apply element_inv in He as [-> He].
  destruct (el_props e !! KStr "dataset") as [[]|] eqn:Hs;
    try apply keeps_throw.
  apply keeps_update. intros e0 He0. assert (e0 = e) as -> by congruence.
  eapply same_surface_insert; [exact Hs | reflexivity].
Qed.

Lemma keeps_dataset_assign (v : value) (w : World) :
  keeps node (dataset_assign R node v) w.
Proof.
  unfold dataset_assign.
  apply keeps_bind; [apply keeps_element|]. intros e w1 _.
  destruct (el_props e !! KStr "dataset") as [[]|]; try apply keeps_throw.
  apply keeps_for_each. apply keeps_dataset_put.
Qed.

Lemma keeps_classList_add (v : value) (w : World) :
  keeps node (classList_add R node v) w.
Proof.
  unfold classList_add.
  apply keeps_bind; [apply keeps_element|]. intros e w1 He.
  apply element_inv in He as [-> He].
  destruct (el_props e !! KStr "classList") as [[]|] eqn:Hs;
    try apply keeps_throw.
  apply keeps_bind; [apply keeps_lift|]. intros args w1 Hl.
  apply lift_inv in Hl as ->.
  apply keeps_bind; [apply keeps_lift|]. intros toks w1 Hl.
  apply lift_inv in Hl as ->.
  apply keeps_bind; [apply keeps_lift|]. intros [] w1 Hl.
  apply lift_inv in Hl as ->.
  apply keeps_update. intros e0 He0. assert (e0 = e) as -> by congruence.
  eapply same_surface_insert; [exact Hs | reflexivity].
Qed.

(** A write to a key the node has keeps the surface. *)
Lemma keeps_set_property (k : Key) (v : value) (w : World) :
  (exists e, heap w !! node = Some e /\ has_property e k = true) ->
  keeps node (set_property R node k v) w.
Proof.
  intros (e & He & Hk). unfold set_property.
  apply keeps_bind; [apply keeps_element|]. intros e1 w1 He1.
  apply element_inv in He1 as [-> He1]. assert (e1 = e) as -> by congruence.
  unfold has_property in Hk. apply bool_decide_eq_true_1 in Hk as [s Hs].
  rewrite Hs. destruct s as [[] ?| | |]; try apply keeps_throw.
  - apply keeps_update. intros e0 He0. assert (e0 = e) as -> by congruence.
    eapply same_surface_insert; [exact Hs | reflexivity].
  - apply keeps_bind; [apply keeps_lift|]. intros t w1 Hl.
    apply lift_inv in Hl as ->.
    apply keeps_update. intros e0 He0. assert (e0 = e) as -> by congruence.
    eapply same_surface_insert; [exact Hs | reflexivity].
  - apply keeps_bind; [apply keeps_lift|]. intros t w1 Hl.
    apply lift_inv in Hl as ->.
    apply keeps_update. intros e0 He0. assert (e0 = e) as -> by congruence.
    eapply same_surface_insert; [exact Hs | reflexivity].
Qed.

Lemma keeps_named_intent (k : Key) (v : value) (w : World) :
  keeps node (named_intent R node k v) w.
Proof.
  unfold named_intent.
  apply keeps_bind; [apply keeps_key_in|]. intros known w1 _.
  destruct known; [apply keeps_ret|].
  repeat (case_bool_decide; [|]); try apply keeps_ret.
  - apply keeps_bind; [apply keeps_lift|]. intros ks w2 _.
    apply keeps_bind; [|intros; apply keeps_ret].
    apply keeps_for_each. intros a w3.
    apply keeps_bind; [apply keeps_lift|]. intros name w4 _.
    apply keeps_setAttribute.
  - apply keeps_bind; [apply keeps_dataset_assign|].
    intros; apply keeps_ret.
  - apply keeps_bind; [apply keeps_lookup_identifier|]. intros g w2 _.
    apply keeps_bind; [|intros; apply keeps_ret].
    destruct (truthy g); [apply keeps_setAttribute|apply keeps_set_style_text].
Qed.

Lemma keeps_known_property (k : Key) (v : value) (w : World) :
  keeps node (known_property R node k v) w.
Proof.
  unfold known_property.
  apply keeps_bind; [apply keeps_key_in|]. intros known w1 Hin.
  apply key_in_inv in Hin as (-> & e & He & ->).
  destruct (has_property e k) eqn:Hk; [|apply keeps_ret].
  apply keeps_bind; [|intros; apply keeps_ret].
  case_bool_decide; [apply keeps_classList_add|].
  apply keeps_try_catch; [apply keeps_set_property; eauto|].
  intros; apply keeps_setAttribute.
Qed.

Lemma keeps_hint_prefix (k : Key) (v : value) (w : World) :
  keeps node (hint_prefix node k v) w.
Proof.
  assert (Hat : forall s v0 w0, keeps node (at_case node s v0) w0).
  { intros s v0 w0. unfold at_case. destruct (isArray v0); [|apply keeps_ret].
    apply keeps_bind; [apply keeps_lift|]. intros args w1 _.
    apply keeps_bind; [apply keeps_addEventListener|].
    intros; apply keeps_ret. }
  unfold hint_prefix. destruct k as [s|id]; [|apply keeps_throw].
  destruct (startsWith s "?"); [apply Hat|].
  destruct (startsWith s "@"); [apply Hat|apply keeps_ret].
Qed.

Lemma keeps_by_type (k : Key) (v : value) (w : World) :
  keeps node (by_type R node k v) w.
Proof.
  assert (Hl : forall w0, keeps node
            (match k with
             | KStr s => addEventListener node s [v]
             | KSym _ => throw TypeError
             end) w0).
  { intros w0. destruct k; [apply keeps_addEventListener|apply keeps_throw]. }
  assert (Ho : forall w0, keeps node
            (if negb (truthy v) then ret tt
             else if bool_decide
                       (typeof (get v (KStr "handleEvent")) <> TFunction)
             then
               let* json := lift (stringify R v) in
               setAttribute R node k json
             else
               match k with
               | KStr s => addEventListener node s [v]
               | KSym _ => throw TypeError
               end) w0).
  { intros w0. destruct (negb (truthy v)); [apply keeps_ret|].
    case_bool_decide; [|apply Hl].
    apply keeps_bind; [apply keeps_lift|]. intros json w1 _.
    apply keeps_setAttribute. }
  unfold by_type.
  destruct (typeof v); try apply Ho; try apply Hl;
    try apply keeps_setAttribute.
  destruct k; [apply keeps_toggleAttribute|apply keeps_throw].
Qed.

Lemma keeps_resolve_pair (k : Key) (v : value) (w : World) :
  keeps node (resolve_pair R node k v) w.
Proof.
  unfold resolve_pair.
  apply keeps_bind; [apply keeps_named_intent|]. intros [|k1 v1] w1 _;
    [apply keeps_ret|]. simpl.
  apply keeps_bind; [apply keeps_known_property|]. intros [|k2 v2] w2 _;
    [apply keeps_ret|]. simpl.
  apply keeps_bind; [apply keeps_hint_prefix|]. intros [|k3 v3] w3 _;
    [apply keeps_ret|]. simpl.
  apply keeps_by_type.
Qed.

End Keeps.

(** *** Bags whose resolution completes *)

Section AcceptedOptions.

Context (R : Realm) (node : nat).




End AcceptedOptions.

(** ** Runs on the concrete realm *)

Section Runs.

Import Sample.

(** The examples of the specification: [class] and [text] become the
    properties [className] and [textContent] of the new node and no
    attribute is written; [svg:circle] creates a node named [circle] in the
    SVG namespace. *)
Example class_and_text_become_properties :
  exists w' e',
    configure realm (TagString "div")
      (Some [(KStr "class", VString "a"); (KStr "text", VString "hi")]) []
      world = (Normal (VNode 3), w')
    /\ heap w' !! 3 = Some e'
    /\ el_props e' !! KStr "className" = Some (Data true (VString "a"))
    /\ el_props e' !! KStr "textContent" = Some (Data true (VString "hi"))
    /\ el_attributes e' = ∅.
Proof. do 2 eexists. repeat split; vm_compute; reflexivity. Qed.

Example svg_tag_creates_a_namespaced_node :
  exists w' e',
    configure realm (TagString "svg:circle") None [] world =
      (Normal (VNode 3), w')
    /\ heap w' !! 3 = Some e'
    /\ el_namespace e' = Some svg_namespace
    /\ el_localName e' = "circle".
Proof. do 2 eexists. repeat split; vm_compute; reflexivity. Qed.

Lemma question_key_toggles_witness :
  has_property (html_element "div") (KStr "?hidden") = false
  /\ resolve_pair realm 0 (KStr "?hidden") (VNumber 1) world =
     toggleAttribute realm 0 "hidden" true world.
Proof.
  split; [vm_compute; reflexivity|].
  refine (proj1 (proj2 (question_key_toggles realm world 0
                          (html_element "div") _ "?hidden" (VNumber 1) _ _)));
    vm_compute; reflexivity.
Defined.

Lemma at_key_registers_witness :
  resolve_pair realm 0 (KStr "@click")
    (VArray [VObject true []; VObject false [(KStr "once", VBool true)]])
    world =
  (Normal tt,
   mkWorld
     (<[0 := with_listeners (html_element "div")
               [("click", VObject true [],
                 Some (VObject false [(KStr "once", VBool true)]))]]>
        (heap world))
     [ListenerAdded 0 "click" (VObject true [])
        (Some (VObject false [(KStr "once", VBool true)]))]).
Proof.
  refine (proj1 (proj2 (at_key_registers realm world 0 (html_element "div")
                          _ "@click" _ _ _)) _ _ eq_refl _);
    vm_compute; reflexivity.
Defined.


Lemma plain_key_boolean_or_nothing_witness :
  resolve_pair realm 0 (KStr "contenteditable") (VBool true) world =
    toggleAttribute realm 0 "contenteditable" true world
  /\ resolve_pair realm 0 (KStr "contenteditable") VNull world =
     (Normal tt, world).
Proof.
  assert (Hn : "contenteditable" ∉ named_intents)
    by (apply (bool_decide_unpack _); vm_compute; exact I).
  pose proof (plain_key_boolean_or_nothing realm world 0 (html_element "div")
                ltac:(vm_compute; reflexivity) "contenteditable") as H.
  split.
  - exact (proj1 (proj1 (H (VBool true) ltac:(vm_compute; reflexivity) Hn
                           eq_refl) true eq_refl)).
  - exact (proj2 (H VNull ltac:(vm_compute; reflexivity) Hn eq_refl)
             (or_introl eq_refl)).
Defined.


Lemma style_intent_reads_unbound_identifier_witness :
  el_namespace (xml_element "item") = Some "urn:example:shapes"
  /\ has_property (xml_element "item") (KStr "style") = false
  /\ resolve_pair realm 2 (KStr "style") (VString "fill:red") world =
     (Throw ReferenceError, world).
Proof.
  split; [reflexivity|]. split; [vm_compute; reflexivity|].
  refine (proj1 (style_intent_reads_unbound_identifier realm world 2
                   (xml_element "item") (VString "fill:red") _ _) _);
    vm_compute; reflexivity.
Defined.

Lemma miss_in_page : selector_misses realm (TagString "<#missing") [].
Proof.
  exists "<#missing", 0. repeat split; vm_compute; reflexivity.
Defined.

Lemma null_path_is_atomic_witness :
  configure realm (TagString "<#missing") None
    [VString "never appended"] world =
  (Normal VNull, mkWorld (heap world) [OptionRead (KStr "document")]).
Proof.
  exact (null_path_is_atomic realm (TagString "<#missing") None
           [VString "never appended"] world miss_in_page).
Defined.

Lemma null_iff_selector_misses_witness :
  fst (configure realm (TagString "<#missing") None [] world) = Normal VNull.
Proof.
  exact (proj2 (proj1 (null_iff_selector_misses realm (TagString "<#missing")
                         None [] world)) miss_in_page).
Defined.

Lemma one_outcome_per_completed_pair_witness :
  exists! c, outcome false [AttributeToggled 0 "hidden" true] c.
Proof.
  refine (proj2 (one_outcome_per_completed_pair realm 0 (html_element "div")
                   (KStr "?hidden") (VNumber 1) world
                   [AttributeToggled 0 "hidden" true] _ _) _);
    vm_compute; reflexivity.
Defined.



(** C3, refuted as stated: a tag that is no selector, on which the call
    returns neither [null] nor the node. *)
Lemma configure_throws_on_a_plain_tag :
  ~ selector_misses realm (TagString "div") [(KStr "aria", VNull)]
  /\ fst (configure realm (TagString "div") (Some [(KStr "aria", VNull)]) []
            world) = Throw TypeError.
Proof.
  split; [|vm_compute; reflexivity].
  intros (s & d & [= <-] & Hs & _). discriminate Hs.
Qed.

(** C5, refuted as stated: pairs whose resolution neither mutates the node
    in any category nor ignores the pair silently, but throws. *)
Lemma throwing_pair_has_no_outcome :
  resolve_pair realm 0 (KSym 0) (VNumber 1) world = (Throw TypeError, world)
  /\ resolve_pair realm 0 (KStr "aria") VNull world =
     (Throw TypeError, world).
Proof. split; vm_compute; reflexivity. Qed.

(** C8, refuted as stated, on keys that are no property of the node and
    none of the names of line 53: under [@x] a boolean toggles the
    attribute [x], not [@x]; under [?hidden] the value [null] removes the
    attribute [hidden]; a symbol key with [null] throws; [class], which
    the comment of line 52 does not list, writes the property
    [className]; a key that is no attribute name makes the toggle throw. *)
Lemma prefixed_or_symbol_key_is_not_toggled_as_is :
  (has_property (html_element "div") (KStr "@x") = false
   /\ exists w' e',
        resolve_pair realm 0 (KStr "@x") (VBool true) world = (Normal tt, w')
        /\ heap w' !! 0 = Some e'
        /\ el_attributes e' !! "@x" = None
        /\ el_attributes e' !! "x" = Some "")
  /\ (has_property hidden_div (KStr "?hidden") = false
      /\ exists w' e',
           resolve_pair realm 0 (KStr "?hidden") VNull
             (mkWorld {[ 0 := hidden_div ]} []) = (Normal tt, w')
           /\ heap w' !! 0 = Some e'
           /\ el_attributes hidden_div !! "hidden" = Some ""
           /\ el_attributes e' !! "hidden" = None)
  /\ (has_property (html_element "div") (KSym 0) = false
      /\ resolve_pair realm 0 (KSym 0) VNull world = (Throw TypeError, world))
  /\ (has_property (html_element "div") (KStr "class") = false
      /\ exists w' e',
           resolve_pair realm 0 (KStr "class") (VBool true) world =
             (Normal tt, w')
           /\ heap w' !! 0 = Some e'
           /\ el_attributes e' !! "class" = None
           /\ el_props e' !! KStr "className" = Some (Data true (VBool true)))
  /\ (has_property (html_element "div") (KStr "a b") = false
      /\ resolve_pair realm 0 (KStr "a b") (VBool true) world =
         (Throw InvalidCharacterError, world)).
Proof.
  repeat split; try (vm_compute; reflexivity);
    eexists; eexists; repeat split; vm_compute; reflexivity.
Qed.

End Runs.

(** ** Further properties *)

Section PairRules.

Context (R : Realm) (w : World) (node : nat) (e : Element).
Hypothesis Hnode : heap w !! node = Some e.







(** A string key that is no property, none of the names of line 53 and
    carries no [?] reaches the type switch under its name, less a leading
    [@], unless it is an [@] key with an array. *)
Lemma resolve_pair_by_type (s : string) (v : value) :
  has_property e (KStr s) = false ->
  s ∉ named_intents ->
  startsWith s "?" = false ->
  startsWith s "@" && isArray v = false ->
  resolve_pair R node (KStr s) v w = by_type R node (KStr (fallback_name s)) v w.
Proof.
  intros Hk Hn Hq Ha.
  rewrite (resolve_pair_unknown R _ _ _ _ _ Hnode Hk)
    by (intros s' [= <-]; exact Hn).
  unfold bind at 1, hint_prefix, fallback_name. rewrite Hq.
  destruct (startsWith s "@"); [|reflexivity].
  unfold at_case. simpl in Ha. rewrite Ha. reflexivity.
Qed.

(** X3.  A key without a marker that is no property of the node and none of
    the names of line 53, with a function or an object that has a
    [handleEvent] method, registers the value as a listener under the key
    itself, with no options (lines 130-145). *)
Theorem callable_value_is_registered (s : string) (v : value) :
  has_property e (KStr s) = false ->
  s ∉ named_intents ->
  startsWith s "?" = false ->
  startsWith s "@" = false ->
  typeof v = TFunction
  \/ (typeof v = TObject
      /\ typeof (get v (KStr "handleEvent")) = TFunction) ->
  resolve_pair R node (KStr s) v w =
  (Normal tt,
   mkWorld
     (<[node := with_listeners e (el_listeners e ++ [(s, v, None)])]> (heap w))
     (journal w ++ [ListenerAdded node s v None])).
Proof.
  intros Hk Hn Hq Ha Hv.
  rewrite (resolve_pair_by_type s v Hk Hn Hq) by (rewrite Ha; reflexivity).
  unfold fallback_name. rewrite Ha. unfold by_type.
  assert (Ho : is_object v = true /\ truthy v = true).
  { destruct Hv as [Hv|[Hv Hh]];
      destruct v as [| | | | | | |[] ?| | |]; try discriminate Hv;
      try discriminate Hh; auto. }
  destruct Ho as [Ho Ht].
  destruct Hv as [Hv|[Hv Hh]]; rewrite Hv.
  - apply (addEventListener_object _ _ _ _ _ [] Hnode Ho).
  - rewrite Ht. simpl. rewrite bool_decide_eq_false_2 by (rewrite Hh; auto).
    apply (addEventListener_object _ _ _ _ _ [] Hnode Ho).
Qed.



End PairRules.

Section Merges.

Context (R : Realm) (node : nat).

Lemma dataset_puts (entries : list (Key * value))
    (writes : list (string * string)) :
  Forall2
    (fun kx sv =>
       fst kx = KStr (fst sv)
       /\ to_string R (snd kx) = Normal (snd sv)
       /\ valid_dataset_name R (fst sv) = true)
    entries writes ->
  forall (w : World) (e : Element) (m : gmap string string),
    heap w !! node = Some e ->
    el_props e !! KStr "dataset" = Some (StringMap m) ->
    for_each entries (dataset_put R node) w =
    (Normal tt,
     mkWorld
       (<[node := with_props e
                    (<[KStr "dataset" := StringMap (dataset_written writes m)]>
                       (el_props e))]> (heap w))
       (journal w ++ map (fun sv => DatasetSet node (fst sv) (snd sv)) writes)).
Proof.
  induction 1 as [|[k x] [name s] entries writes (Hk & Hs & Hv) _ IH];
    intros w e m Hnode Hm.
  - simpl. unfold ret. f_equal. destruct w as [h j], e as [? ? p ? ? ?].
    simpl in *. rewrite app_nil_r, (insert_id p) by exact Hm.
    rewrite insert_id by exact Hnode. reflexivity.
  - simpl in Hk, Hs, Hv. subst k. simpl. unfold bind at 1.
    unfold dataset_put at 1. simpl.
    unfold bind, lift, element, update. rewrite Hs, Hv, Hnode, Hm, Hnode.
    erewrite IH; [|simpl; apply lookup_insert_eq|simpl; apply lookup_insert_eq].
    simpl. rewrite !insert_insert_eq, <- app_assoc. reflexivity.
Qed.

(** X6.  [data] on a node without a property of that name copies the
    string-keyed enumerable entries of the value into the dataset, in
    order, a later write over an earlier one, and keeps the entries it does
    not name; a value without such entries ([null], a number) copies
    nothing (lines 63-66). *)
Theorem data_is_merged_into_the_dataset (w : World) (e : Element) (v : value)
    (m : gmap string string) (writes : list (string * string)) :
  heap w !! node = Some e ->
  has_property e (KStr "data") = false ->
  el_props e !! KStr "dataset" = Some (StringMap m) ->
  Forall2
    (fun kx sv =>
       fst kx = KStr (fst sv)
       /\ to_string R (snd kx) = Normal (snd sv)
       /\ valid_dataset_name R (fst sv) = true)
    (own_enumerable v) writes ->
  resolve_pair R node (KStr "data") v w =
  (Normal tt,
   mkWorld
     (<[node := with_props e
                  (<[KStr "dataset" := StringMap (dataset_written writes m)]>
                     (el_props e))]> (heap w))
     (journal w ++ map (fun sv => DatasetSet node (fst sv) (snd sv)) writes)).
Proof.
  intros Hnode Hk Hm Hall.
  unfold resolve_pair, bind at 1, named_intent, bind at 1.
  rewrite (key_in_eq _ _ _ _ Hnode), Hk.
  rewrite bool_decide_eq_false_2 by discriminate.
  rewrite bool_decide_eq_true_2 by reflexivity.
  unfold bind at 1, dataset_assign, bind at 1, element. rewrite Hnode, Hm.
  rewrite (dataset_puts _ _ Hall w e m Hnode Hm). reflexivity.
Qed.

(** Adding tokens keeps the tokens there are, in their places. *)
Lemma add_tokens_prefix (new cur : list string) :
  cur `prefix_of` add_tokens cur new.
Proof.
  revert cur. induction new as [|t new IH]; intros cur; simpl.
  - reflexivity.
  - unfold add_tokens in *. simpl. etransitivity; [|apply IH].
    unfold add_token. case_bool_decide; [reflexivity|].
    apply prefix_app_r. reflexivity.
Qed.

Lemma add_tokens_elem (new cur : list string) (t : string) :
  t ∈ add_tokens cur new <-> t ∈ cur \/ t ∈ new.
Proof.
  revert cur. induction new as [|t' new IH]; intros cur.
  - simpl. rewrite elem_of_nil. tauto.
  - unfold add_tokens in *. simpl. rewrite IH, elem_of_cons.
    unfold add_token. case_bool_decide as Hin.
    + split; [tauto|]. intros [H|[->|H]]; auto.
    + rewrite elem_of_app, list_elem_of_singleton. tauto.
Qed.

Lemma add_tokens_NoDup (new cur : list string) :
  NoDup cur -> NoDup (add_tokens cur new).
Proof.
  revert cur. induction new as [|t new IH]; intros cur Hcur; [exact Hcur|].
  unfold add_tokens in *. simpl. apply IH. unfold add_token.
  case_bool_decide as Hin; [exact Hcur|].
  apply NoDup_app. split; [exact Hcur|]. split.
  - intros x Hx Hx'. apply list_elem_of_singleton in Hx'. subst. contradiction.
  - apply NoDup_singleton.
Qed.

(** X7.  [classList] adds the tokens of the value to the class list (lines
    89-91): the tokens there stay in their places, the list holds exactly
    the old and the new tokens afterwards, and no duplicate is introduced. *)
Theorem class_list_is_extended (w : World) (e : Element) (v : value)
    (cur : list string) (args : list value) (toks : list string) :
  heap w !! node = Some e ->
  el_props e !! KStr "classList" = Some (TokenList cur) ->
  spread v = Normal args ->
  to_strings R args = Normal toks ->
  validate_tokens toks = Normal tt ->
  exists now,
    resolve_pair R node (KStr "classList") v w =
    (Normal tt,
     mkWorld
       (<[node := with_props e
                    (<[KStr "classList" := TokenList now]> (el_props e))]>
          (heap w))
       (journal w ++ [ClassesAdded node toks]))
    /\ cur `prefix_of` now
    /\ (forall t, t ∈ now <-> t ∈ cur \/ t ∈ toks)
    /\ (NoDup cur -> NoDup now).
Proof.
  intros Hnode Hcur Hargs Htoks Hval. exists (add_tokens cur toks).
  split; [|split; [apply add_tokens_prefix|split;
                   [intros t; apply add_tokens_elem|apply add_tokens_NoDup]]].
  assert (Hk : has_property e (KStr "classList") = true).
  { unfold has_property. apply bool_decide_eq_true_2. eauto. }
  unfold resolve_pair, bind at 1.
  rewrite (named_intent_known R _ _ _ _ _ Hnode Hk).
  cbv beta iota delta [onward]. unfold bind at 1, known_property, bind at 1.
  rewrite (key_in_eq _ _ _ _ Hnode), Hk.
  rewrite bool_decide_eq_true_2 by reflexivity.
  unfold bind, classList_add, bind, element, lift, update.
  rewrite Hnode, Hcur, Hargs, Htoks, Hval, Hnode. reflexivity.
Qed.

End Merges.

Section Loop.

Context (R : Realm) (node : nat).

Lemma for_each_app {A} (l1 l2 : list A) (body : A -> M unit) (w : World) :
  for_each (l1 ++ l2) body w = (for_each l1 body ;; for_each l2 body) w.
Proof.
  revert w. induction l1 as [|a l1 IH]; intros w; simpl.
  - reflexivity.
  - unfold bind in *. destruct (body a w) as [[[]|x] w1]; [|reflexivity].
    apply IH.
Qed.

Lemma for_each_ext_in {A} (l : list A) (f g : A -> M unit) :
  (forall a w, a ∈ l -> f a w = g a w) ->
  forall w, for_each l f w = for_each l g w.
Proof.
  induction l as [|a l IH]; intros Hfg w; simpl; [reflexivity|].
  unfold bind. rewrite (Hfg a w) by apply list_elem_of_here.
  destruct (g a w) as [[[]|x] w1]; [|reflexivity].
  apply IH. intros b w' Hb. apply Hfg. apply list_elem_of_further, Hb.
Qed.

Lemma assoc_without_is (k : Key) (options : Bag) :
  k <> KStr "is" -> assoc k (without_is options) = assoc k options.
Proof.
  intros Hk. unfold without_is. induction options as [|[k' x] options IH].
  - reflexivity.
  - rewrite filter_cons. simpl. case_decide as Hk'.
    + simpl. rewrite IH. reflexivity.
    + simpl in Hk'. subst k'.
      rewrite bool_decide_eq_false_2 by congruence. exact IH.
Qed.

Lemma keys_without_is (options : Bag) :
  map fst (without_is options) =
  filter (fun k => k <> KStr "is") (map fst options).
Proof.
  unfold without_is. induction options as [|[k x] options IH]; [reflexivity|].
  simpl. rewrite !filter_cons. simpl. case_decide; simpl; rewrite IH;
    reflexivity.
Qed.

(** X8.  When the [is] hint was consumed by [createElement], the loop
    resolves the bag as if it had no [is] key (lines 37-39 and 48). *)
Theorem consumed_hint_is_left_out (options : Bag) (w : World) :
  resolve R node true options w = resolve R node false (without_is options) w.
Proof.
  unfold resolve. rewrite keys_without_is.
  assert (H : forall l w0,
    for_each l (resolve_key R node true options) w0 =
    for_each (filter (fun k => k <> KStr "is") l)
      (resolve_key R node false (without_is options)) w0).
  { induction l as [|k l IH]; intros w0; [reflexivity|].
    rewrite filter_cons. simpl. case_decide as Hk.
    - simpl. unfold bind. unfold resolve_key at 1 3.
      rewrite bool_decide_eq_false_2 by exact Hk. simpl.
      unfold read. rewrite (assoc_without_is _ _ Hk).
      match goal with |- context [bind ?m ?f w0] =>
        destruct (bind m f w0) as [[[]|x] w1] end; [apply IH|reflexivity].
    - simpl in Hk. subst k. unfold bind, resolve_key at 1.
      rewrite bool_decide_eq_true_2 by reflexivity. simpl. apply IH. }
  apply H.
Qed.


Lemma assoc_app_l (k : Key) (o1 o2 : list (Key * value)) :
  k ∈ map fst o1 -> assoc k (o1 ++ o2)%list = assoc k o1.
Proof.
  induction o1 as [|[k' x] o1 IH]; simpl.
  - intros H. apply elem_of_nil in H as [].
  - intros H. case_bool_decide; [reflexivity|].
    apply IH. apply elem_of_cons in H as [->|H]; [contradiction|exact H].
Qed.

Lemma assoc_app_r (k : Key) (o1 o2 : list (Key * value)) :
  k ∉ map fst o1 -> assoc k (o1 ++ o2)%list = assoc k o2.
Proof.
  induction o1 as [|[k' x] o1 IH]; simpl; [reflexivity|].
  intros H. rewrite not_elem_of_cons in H. destruct H as [Hne H].
  rewrite bool_decide_eq_false_2 by congruence. apply IH, H.
Qed.

(** X9.  Resolving a bag made of two parts with no key in common is
    resolving the first part and then the second (lines 47-148): the pairs
    are handled one by one, in own-keys order, each reading its own value. *)
Theorem merged_bags_resolve_in_turn (custom : bool)
    (o1 o2 : list (Key * value)) (w : World) :
  (forall k, k ∈ map fst o2 -> k ∉ map fst o1) ->
  resolve R node custom (o1 ++ o2)%list w =
  (resolve R node custom o1 ;; resolve R node custom o2) w.
Proof.
  intros Hdisj. unfold resolve. rewrite map_app, for_each_app.
  unfold bind.
  rewrite (for_each_ext_in (map fst o1) _ (resolve_key R node custom o1)).
  - destruct (for_each (map fst o1) _ w) as [[[]|x] w1]; [|reflexivity].
    apply for_each_ext_in. intros k w0 Hk. unfold resolve_key, read.
    rewrite (assoc_app_r _ _ _ (Hdisj k Hk)). reflexivity.
  - intros k w0 Hk. unfold resolve_key, read.
    rewrite (assoc_app_l _ _ _ Hk). reflexivity.
Qed.


(** The events of one pair are mutations: none is a read of the bag. *)
Lemma only_no_reads (x : bool) (c : Category) (evs : list Event) :
  Forall (fun ev => category_of x ev = Some c) evs -> reads evs = [].
Proof.
  induction 1 as [|ev evs Hev _ IH]; [reflexivity|].
  unfold reads in *. simpl. destruct ev; try discriminate Hev; exact IH.
Qed.

Lemma resolve_key_reads (custom : bool) (options : Bag) (k : Key) (w : World)
    (e : Element) :
  heap w !! node = Some e ->
  exists evs e',
    journal (snd (resolve_key R node custom options k w)) =
      (journal w ++ evs)%list
    /\ heap (snd (resolve_key R node custom options k w)) !! node = Some e'
    /\ reads evs =
       (if decide (custom = true /\ k = KStr "is") then [] else [k]).
Proof.
  intros Hnode. unfold resolve_key.
  destruct (decide (custom = true /\ k = KStr "is")) as [[-> ->]|Hskip].
  { rewrite bool_decide_eq_true_2 by reflexivity. simpl.
    exists [], e. rewrite app_nil_r. auto. }
  assert (Hb : custom && bool_decide (k = KStr "is") = false).
  { destruct custom; [|reflexivity]. simpl. apply bool_decide_eq_false_2.
    intros ->. apply Hskip. auto. }
  rewrite Hb. unfold bind at 1, read, bind, record, ret.
  set (w1 := mkWorld (heap w) (journal w ++ [OptionRead k])).
  set (v := default VUndefined (assoc k options)).
  assert (H1 : heap w1 !! node = Some e) by exact Hnode.
  destruct (resolve_pair_one_category R node e k v w1 H1)
    as (c & evs & Hj & Hc).
  destruct (keeps_resolve_pair R node k v w1 e H1) as (e' & He' & _).
  exists (OptionRead k :: evs), e'. split; [|split; [exact He'|]].
  - rewrite Hj. subst w1. simpl. rewrite <- app_assoc. reflexivity.
  - change (reads (OptionRead k :: evs)) with (k :: reads evs).
    rewrite (only_no_reads _ _ _ Hc). reflexivity.
Qed.

Lemma for_each_key_reads (custom : bool) (options : Bag) (l : list Key) :
  forall (w : World) (e : Element),
    heap w !! node = Some e ->
    exists evs,
      journal (snd (for_each l (resolve_key R node custom options) w)) =
        (journal w ++ evs)%list
      /\ reads evs `prefix_of`
           filter (fun k => ~ (custom = true /\ k = KStr "is")) l
      /\ (fst (for_each l (resolve_key R node custom options) w) = Normal tt ->
          reads evs = filter (fun k => ~ (custom = true /\ k = KStr "is")) l).
Proof.
  induction l as [|k l IH]; intros w e Hnode.
  - exists []. simpl. rewrite app_nil_r. auto.
  - destruct (resolve_key_reads custom options k w e Hnode)
      as (evs1 & e1 & Hj1 & He1 & Hr1).
    simpl. unfold bind.
    destruct (resolve_key R node custom options k w) as [[[]|x] w1] eqn:Hk;
      simpl in Hj1, He1.
    + destruct (IH w1 e1 He1) as (evs2 & Hj2 & Hp2 & Hd2).
      exists (evs1 ++ evs2)%list. rewrite Hj2, Hj1, <- app_assoc.
      split; [reflexivity|]. unfold reads in *. rewrite omap_app, Hr1.
      rewrite filter_cons.
      destruct (decide (custom = true /\ k = KStr "is")) as [Hs|Hs].
      * rewrite decide_False by tauto. simpl. auto.
      * rewrite decide_True by exact Hs. simpl. split.
        -- apply (prefix_app [k]), Hp2.
        -- intros Hd. rewrite (Hd2 Hd). reflexivity.
    + exists evs1. simpl. split; [exact Hj1|]. split; [|discriminate].
      rewrite Hr1. rewrite filter_cons.
      destruct (decide (custom = true /\ k = KStr "is")) as [Hs|Hs].
      * rewrite decide_False by tauto. apply prefix_nil.
      * rewrite decide_True by exact Hs. apply prefix_cons, prefix_nil.
Qed.

(** X11.  Every key the loop does not skip is read from the bag once, in
    own-keys order (lines 47-49): the reads journalled are a prefix of those
    keys, and all of them when the resolution completes. *)
Theorem options_are_read_once_in_order (custom : bool) (options : Bag)
    (w : World) (e : Element) (evs : list Event) :
  heap w !! node = Some e ->
  journal (snd (resolve R node custom options w)) = (journal w ++ evs)%list ->
  reads evs `prefix_of` resolved_keys custom options
  /\ (fst (resolve R node custom options w) = Normal tt ->
      reads evs = resolved_keys custom options).
Proof.
  intros Hnode Hj. unfold resolve in *.
  destruct (for_each_key_reads custom options (map fst options) w e Hnode)
    as (evs' & Hj' & Hp & Hd).
  rewrite Hj in Hj'. apply app_inv_head in Hj'. subst evs'. auto.
Qed.

End Loop.

Section Confined.

Context (R : Realm) (node : nat).

Lemma confined_quiet {A} (m : M A) :
  (forall w, snd (m w) = w) -> confined node m.
Proof.
  intros Hq w. rewrite Hq. split; [reflexivity|].
  exists []. rewrite app_nil_r. split; [reflexivity|constructor].
Qed.

Lemma confined_ret {A} (a : A) : confined node (ret a).
Proof. apply confined_quiet. reflexivity. Qed.

Lemma confined_throw {A} (x : Exn) : confined node (throw (A := A) x).
Proof. apply confined_quiet. reflexivity. Qed.

Lemma confined_lift {A} (c : Completion A) : confined node (lift c).
Proof. apply confined_quiet. reflexivity. Qed.

Lemma confined_element (r : nat) : confined node (element r).
Proof.
  apply confined_quiet. intros w. unfold element.
  destruct (heap w !! r); reflexivity.
Qed.

Lemma confined_lookup_identifier (name : string) :
  confined node (lookup_identifier R name).
Proof.
  apply confined_quiet. intros w. unfold lookup_identifier.
  destruct (globals R !! name); reflexivity.
Qed.

Lemma confined_record (k : Key) : confined node (record (OptionRead k)).
Proof.
  intros w. split; [reflexivity|]. exists [OptionRead k].
  split; [reflexivity|]. constructor; [|constructor]. discriminate.
Qed.

Lemma confined_update (f : Element -> Element) (ev : Event) :
  receiver ev = Some node -> confined node (update node f ev).
Proof.
  intros Hev w. unfold update. destruct (heap w !! node) as [e|]; simpl.
  - split.
    + intros r Hr. apply lookup_insert_ne. congruence.
    + exists [ev]. split; [reflexivity|]. constructor; [|constructor].
      intros r Hr. congruence.
  - split; [reflexivity|]. exists []. rewrite app_nil_r.
    split; [reflexivity|constructor].
Qed.

Lemma confined_bind {A B} (m : M A) (k : A -> M B) :
  confined node m -> (forall a, confined node (k a)) ->
  confined node (bind m k).
Proof.
  intros Hm Hk w. destruct (Hm w) as (Hh & evs & Hj & Hon). unfold bind.
  destruct (m w) as [[a|x] w1]; simpl in *.
  - destruct (Hk a w1) as (Hh2 & evs2 & Hj2 & Hon2). split.
    + intros r Hr. rewrite Hh2, Hh by exact Hr. reflexivity.
    + exists (evs ++ evs2)%list. rewrite Hj2, Hj, <- app_assoc.
      split; [reflexivity|]. apply Forall_app. auto.
  - eauto.
Qed.

Lemma confined_try_catch {A} (m h : M A) :
  confined node m -> confined node h -> confined node (try_catch m h).
Proof.
  intros Hm Hk w. destruct (Hm w) as (Hh & evs & Hj & Hon). unfold try_catch.
  destruct (m w) as [[a|x] w1]; simpl in *.
  - eauto.
  - destruct (Hk w1) as (Hh2 & evs2 & Hj2 & Hon2). split.
    + intros r Hr. rewrite Hh2, Hh by exact Hr. reflexivity.
    + exists (evs ++ evs2)%list. rewrite Hj2, Hj, <- app_assoc.
      split; [reflexivity|]. apply Forall_app. auto.
Qed.

Lemma confined_for_each {A} (l : list A) (body : A -> M unit) :
  (forall a, confined node (body a)) -> confined node (for_each l body).
Proof.
  intros Hb. induction l as [|a l IH]; simpl.
  - apply confined_ret.
  - apply confined_bind; [apply Hb | intros _; exact IH].
Qed.

Ltac confine_step :=
  first
    [ apply confined_ret
    | apply confined_throw
    | apply confined_lift
    | apply confined_element
    | apply confined_lookup_identifier
    | apply confined_record
    | apply confined_update; reflexivity
    | apply confined_bind; [|intros ?]
    | apply confined_try_catch
    | apply confined_for_each; intros ?
    | match goal with
      | |- confined _ (match ?x with _ => _ end) => destruct x
      end ].

Ltac confine := repeat confine_step.

Lemma confined_setAttribute (k : Key) (v : value) :
  confined node (setAttribute R node k v).
Proof. unfold setAttribute. confine. Qed.

Lemma confined_toggleAttribute (name : string) (force : bool) :
  confined node (toggleAttribute R node name force).
Proof. unfold toggleAttribute. confine. Qed.

Lemma confined_addEventListener (type : string) (args : list value) :
  confined node (addEventListener node type args).
Proof. unfold addEventListener. confine. Qed.

Lemma confined_set_property (k : Key) (v : value) :
  confined node (set_property R node k v).
Proof. unfold set_property. confine. Qed.

Lemma confined_set_style_text (v : value) :
  confined node (set_style_text R node v).
Proof. unfold set_style_text. confine. Qed.

Lemma confined_dataset_put (kx : Key * value) :
  confined node (dataset_put R node kx).
Proof. unfold dataset_put. confine. Qed.

Lemma confined_dataset_assign (v : value) :
  confined node (dataset_assign R node v).
Proof.
  unfold dataset_assign.
  repeat first [apply confined_dataset_put | confine_step].
Qed.

Lemma confined_classList_add (v : value) :
  confined node (classList_add R node v).
Proof. unfold classList_add. confine. Qed.

Lemma confined_append (children : list value) :
  confined node (append R node children).
Proof. unfold append. confine. Qed.

Lemma confined_resolve_pair (k : Key) (v : value) :
  confined node (resolve_pair R node k v).
Proof.
  unfold resolve_pair, onward, named_intent, known_property, hint_prefix,
    at_case, by_type, key_in.
  repeat first
    [ apply confined_setAttribute
    | apply confined_toggleAttribute
    | apply confined_addEventListener
    | apply confined_set_property
    | apply confined_set_style_text
    | apply confined_dataset_assign
    | apply confined_classList_add
    | confine_step ].
Qed.

Lemma confined_resolve (custom : bool) (options : Bag) :
  confined node (resolve R node custom options).
Proof.
  unfold resolve. apply confined_for_each. intros k. unfold resolve_key, read.
  destruct (custom && _); [apply confined_ret|].
  apply confined_bind; [|intros v; apply confined_resolve_pair].
  confine.
Qed.


End Confined.

Section OneNode.

Context (R : Realm).

Lemma provide_receivers (tag : Tag) (options : Bag) (w : World) :
  exists evs,
    journal (snd (provide R tag options w)) = (journal w ++ evs)%list
    /\ match fst (provide R tag options w) with
       | Normal (Some (_, n)) => on_node n evs
       | _ => forall n, on_node n evs
       end.
Proof.
  assert (Hread : forall k n, on_node n [OptionRead k]).
  { intros k n. constructor; [discriminate|constructor]. }
  assert (Hreads : forall k k' k'' n,
            on_node n [OptionRead k; OptionRead k'; OptionRead k'']).
  { intros. repeat (constructor; [discriminate|]). constructor. }
  destruct (provide R tag options w) as [c w'] eqn:Hp. simpl.
  unfold provide in Hp. unfold bind at 1 in Hp. rewrite line_18 in Hp.
  destruct (chosen_document R options) as [doc|].
  2:{ injection Hp as <- <-. eexists. split; [reflexivity|]. intros ?.
      apply Hread. }
  destruct tag as [s|r].
  2:{ injection Hp as <- <-. eexists. split; [reflexivity|]. apply Hread. }
  destruct (startsWith s "<").
  - unfold bind, as_document, lift, ret, throw in Hp.
    destruct doc;
      try (injection Hp as <- <-; eexists; split; [reflexivity|]; intros ?;
           apply Hread).
    destruct (doc_querySelector _ _) as [[r|]|x]; injection Hp as <- <-;
      eexists; (split; [reflexivity|]); try intros ?; apply Hread.
  - unfold bind, as_document, lift, read, bind, record, ret, throw, allocate
      in Hp.
    destruct (_ || _).
    + destruct doc;
        try (injection Hp as <- <-; eexists; split; [reflexivity|];
             intros ?; apply Hread).
      destruct (doc_createElementNS _ _ _); injection Hp as <- <-.
      * eexists. simpl. rewrite <- app_assoc. split; [reflexivity|].
        constructor; [discriminate|]. constructor; [|constructor].
        intros r [= <-]. reflexivity.
      * eexists; split; [reflexivity|]; intros ?; apply Hread.
    + simpl in Hp. destruct (truthy _); simpl in Hp.
      * destruct doc;
          try (injection Hp as <- <-; eexists; simpl; rewrite <- !app_assoc;
               split; [reflexivity|]; intros ?; apply Hreads).
        destruct (doc_createElement _ _ _); injection Hp as <- <-.
        -- eexists. simpl. rewrite <- !app_assoc. split; [reflexivity|].
           repeat (constructor; [discriminate|]).
           constructor; [|constructor]. intros r [= <-]. reflexivity.
        -- eexists; simpl; rewrite <- !app_assoc; split; [reflexivity|];
             intros ?; apply Hreads.
      * destruct doc;
          try (injection Hp as <- <-; eexists; simpl; rewrite <- !app_assoc;
               split; [reflexivity|]; intros ?;
               repeat (constructor; [discriminate|]); constructor).
        destruct (doc_createElement _ _ _); injection Hp as <- <-.
        -- eexists. simpl. rewrite <- !app_assoc. split; [reflexivity|].
           repeat (constructor; [discriminate|]).
           constructor; [|constructor]. intros r [= <-]. reflexivity.
        -- eexists; simpl; rewrite <- !app_assoc; split; [reflexivity|];
             intros ?; repeat (constructor; [discriminate|]); constructor.
Qed.

(** X13.  One call works on one node (lines 16-153): every platform call it
    journals, the creation of the node included, is made on the node it
    returns. *)
Theorem configure_acts_on_the_node_it_returns (tag : Tag)
    (options : option Bag) (childNodes : list value) (w : World) :
  exists evs n,
    journal (snd (configure R tag options childNodes w)) =
      (journal w ++ evs)%list
    /\ on_node n evs
    /\ forall v, fst (configure R tag options childNodes w) = Normal v ->
                 v = VNull \/ v = VNode n.
Proof.
  destruct (configure R tag options childNodes w) as [c w'] eqn:Hc. simpl.
  unfold configure in Hc. unfold bind at 1 in Hc.
  destruct (provide_receivers tag (default [] options) w)
    as (evs & Hj & Hon).
  destruct (provide R tag (default [] options) w) as [[[[custom n]|]|x] w1];
    simpl in Hj, Hon.
  - assert (Hrest : confined n
              (resolve R n custom (default [] options) ;;
               match childNodes with
               | [] => ret tt
               | _ => append R n childNodes
               end ;; ret (VNode n))).
    { apply confined_bind; [apply confined_resolve|]. intros _.
      apply confined_bind; [|intros _; apply confined_ret].
      destruct childNodes; [apply confined_ret|apply confined_append]. }
    destruct (Hrest w1) as (_ & evs2 & Hj2 & Hon2). rewrite Hc in Hj2.
    exists (evs ++ evs2)%list, n. simpl in Hj2. rewrite Hj2, Hj, <- app_assoc.
    split; [reflexivity|]. split; [apply Forall_app; auto|].
    intros v ->. right. revert Hc. unfold bind, ret.
    destruct (resolve R n custom (default [] options) w1) as [[[]|y] w2];
      [|discriminate].
    destruct childNodes as [|c0 cs].
    + intros [= <- _]. reflexivity.
    + destruct (append R n (c0 :: cs) w2) as [[[]|y] w3]; [|discriminate].
      intros [= <- _]. reflexivity.
  - injection Hc as <- <-. exists evs, 0. split; [exact Hj|].
    split; [apply Hon|]. intros v [= <-]. left. reflexivity.
  - injection Hc as <- <-. exists evs, 0. split; [exact Hj|].
    split; [apply Hon|]. discriminate.
Qed.

End OneNode.

Lemma bind_at {A B} (m m' : M A) (k : A -> M B) (w : World) :
  m w = m' w -> bind m k w = bind m' k w.
Proof. unfold bind. intros ->. reflexivity. Qed.

Lemma bind_ext {A B} (m : M A) (k k' : A -> M B) (w : World) :
  (forall a w1, k a w1 = k' a w1) -> bind m k w = bind m k' w.
Proof. intros H. unfold bind. destruct (m w) as [[a|x] w1]; auto. Qed.

Section Provider.

Context (R : Realm).

(** X14.  Line 18 is evaluated for every call: with neither a document among
    the options nor a global one, the call throws [ReferenceError] before
    it looks at the tag, even for a node that needs no document. *)
Theorem no_document_no_call (tag : Tag) (options : option Bag)
    (childNodes : list value) (w : World) :
  chosen_document R (default [] options) = None ->
  configure R tag options childNodes w =
  (Throw ReferenceError,
   mkWorld (heap w) (journal w ++ [OptionRead (KStr "document")])).
Proof.
  intros Hd. unfold configure, provide, bind. rewrite line_18, Hd.
  reflexivity.
Qed.

(** X15.  A selector that matches configures the node it finds (lines
    22-26 and 44): the call is the call on that node. *)
Theorem matched_selector_is_the_node_itself (s : string) (d : nat) (r : nat)
    (options : option Bag) (childNodes : list value) (w : World) :
  startsWith s "<" = true ->
  chosen_document R (default [] options) = Some (VDocument d) ->
  doc_querySelector (document_of R d) (slice 1 s) = Normal (Some r) ->
  configure R (TagString s) options childNodes w =
  configure R (TagNode r) options childNodes w.
Proof.
  intros Hs Hd Hq. unfold configure. apply bind_at.
  unfold provide, bind. rewrite !line_18, Hd, Hs.
  unfold as_document, lift, ret. rewrite Hq. reflexivity.
Qed.

Lemma provide_custom (tag : Tag) (options : Bag) (w w' : World)
    (custom : bool) (n : nat) :
  provide R tag options w = (Normal (Some (custom, n)), w') ->
  custom =
  match tag with
  | TagString s => negb (startsWith s "<") && negb (svg_tag s) && is_hint options
  | TagNode _ => false
  end.
Proof.
  intros Hp. unfold provide in Hp. unfold bind at 1 in Hp.
  rewrite line_18 in Hp.
  destruct (chosen_document R options) as [doc|]; [|discriminate Hp].
  destruct tag as [s|r]; [|injection Hp as <- _ _; reflexivity].
  unfold svg_tag, is_hint. destruct (startsWith s "<").
  - unfold bind, as_document, lift, ret, throw in Hp.
    destruct doc; try discriminate Hp.
    destruct (doc_querySelector _ _) as [[r|]|x]; try discriminate Hp.
    injection Hp as <- _ _. reflexivity.
  - unfold bind, as_document, lift, read, bind, record, ret, throw, allocate
      in Hp.
    destruct (_ || _).
    + destruct doc; try discriminate Hp.
      destruct (doc_createElementNS _ _ _); try discriminate Hp.
      injection Hp as <- _ _. reflexivity.
    + simpl in Hp. destruct (truthy _); simpl in Hp.
      * destruct doc; try discriminate Hp.
        destruct (doc_createElement _ _ _); try discriminate Hp.
        injection Hp as <- _ _. reflexivity.
      * destruct doc; try discriminate Hp.
        destruct (doc_createElement _ _ _); try discriminate Hp.
        injection Hp as <- _ _. reflexivity.
Qed.

(** X16.  The [is] hint is consumed (handed to [createElement] and skipped by
    the loop) exactly for a tag name that is no selector and no SVG tag,
    with a truthy hint; on every other path it stays an ordinary pair
    (lines 20-44). *)
Theorem hint_is_consumed_only_by_plain_tags (tag : Tag) (options : Bag)
    (w w' : World) (custom : bool) (n : nat) :
  provide R tag options w = (Normal (Some (custom, n)), w') ->
  custom = true <->
  exists s,
    tag = TagString s /\ startsWith s "<" = false /\ svg_tag s = false
    /\ is_hint options = true.
Proof.
  intros Hp. rewrite (provide_custom _ _ _ _ _ _ Hp). destruct tag as [s|r].
  - split.
    + intros H. apply andb_true_iff in H as [H Hi].
      apply andb_true_iff in H as [Hs Hn].
      apply negb_true_iff in Hs, Hn. eauto.
    + intros (s' & [= <-] & -> & -> & ->). reflexivity.
  - split; [discriminate|]. intros (s' & Ht & _). discriminate Ht.
Qed.

Lemma provide_creates (s : string) (options : Bag) (w : World) :
  startsWith s "<" = false ->
  match provide R (TagString s) options w with
  | (Normal (Some (_, n)), w') =>
      heap w !! n = None /\ exists e, heap w' = <[n := e]> (heap w)
  | (Normal None, _) => False
  | (Throw _, w') => heap w' = heap w
  end.
Proof.
  intros Hs.
  assert (Hfresh : heap w !! fresh (dom (heap w)) = None).
  { apply not_elem_of_dom, is_fresh. }
  unfold provide. unfold bind at 1. rewrite line_18.
  destruct (chosen_document R options) as [doc|]; [|reflexivity].
  rewrite Hs.
  unfold bind, as_document, lift, read, bind, record, ret, throw, allocate.
  destruct (_ || _).
  - destruct doc; try reflexivity.
    destruct (doc_createElementNS _ _ _); [|reflexivity]. simpl. eauto.
  - simpl. destruct (truthy _); simpl.
    + destruct doc; try reflexivity.
      destruct (doc_createElement _ _ _); [|reflexivity]. simpl. eauto.
    + destruct doc; try reflexivity.
      destruct (doc_createElement _ _ _); [|reflexivity]. simpl. eauto.
Qed.

(** X17.  Building an element from a tag name with no child argument never
    returns [null], returns a node that was not in the heap, and, whether
    the call completes or throws, leaves every element that was there as
    it was (lines 27-41 and 47-152). *)
Theorem created_element_is_new (s : string) (options : option Bag)
    (w : World) :
  startsWith s "<" = false ->
  (forall r e, heap w !! r = Some e ->
     heap (snd (configure R (TagString s) options [] w)) !! r = Some e)
  /\ forall v, fst (configure R (TagString s) options [] w) = Normal v ->
       exists n, v = VNode n /\ heap w !! n = None.
Proof.
  intros Hs.
  destruct (configure R (TagString s) options [] w) as [c w'] eqn:Hc. simpl.
  unfold configure in Hc. unfold bind at 1 in Hc.
  pose proof (provide_creates s (default [] options) w Hs) as Hp.
  destruct (provide R (TagString s) (default [] options) w)
    as [[[[custom n]|]|x] w1]; [|contradiction|].
  - destruct Hp as (Hn & e & Hw1).
    destruct (confined_resolve R n custom (default [] options) w1)
      as (Hframe & _).
    unfold bind, ret in Hc.
    destruct (resolve R n custom (default [] options) w1) as [[[]|y] w2];
      injection Hc as <- <-; simpl in Hframe.
    + split.
      * intros r e0 Hr. rewrite Hframe by congruence. rewrite Hw1.
        rewrite lookup_insert_ne by congruence. exact Hr.
      * intros v [= <-]. eauto.
    + split; [|discriminate].
      intros r e0 Hr. rewrite Hframe by congruence. rewrite Hw1.
      rewrite lookup_insert_ne by congruence. exact Hr.
  - injection Hc as <- <-. split; [|discriminate].
    intros r e Hr. rewrite Hp. exact Hr.
Qed.

End Provider.

Section OwnDocument.

Context (R : Realm) (g : gmap string value).
Hypothesis Hg : forall name, name <> "document" -> g !! name = globals R !! name.

Lemma to_strings_globals (vs : list value) :
  to_strings (with_globals R g) vs = to_strings R vs.
Proof.
  induction vs as [|v vs IH]; [reflexivity|]. simpl. rewrite IH. reflexivity.
Qed.

Lemma to_children_globals (vs : list value) :
  to_children (with_globals R g) vs = to_children R vs.
Proof.
  induction vs as [|v vs IH]; [reflexivity|]. simpl. rewrite IH. reflexivity.
Qed.

Lemma classList_add_globals (node : nat) (v : value) (w : World) :
  classList_add (with_globals R g) node v w = classList_add R node v w.
Proof.
  unfold classList_add, bind, element, lift.
  destruct (heap w !! node) as [e|]; [|reflexivity].
  destruct (el_props e !! KStr "classList") as [[]|]; try reflexivity.
  destruct (spread v) as [args|x]; [|reflexivity].
  rewrite to_strings_globals. reflexivity.
Qed.

Lemma append_globals (node : nat) (vs : list value) (w : World) :
  append (with_globals R g) node vs w = append R node vs w.
Proof.
  unfold append, bind, element, lift. rewrite to_children_globals.
  reflexivity.
Qed.

Lemma known_property_globals (node : nat) (k : Key) (v : value) (w : World) :
  known_property (with_globals R g) node k v w = known_property R node k v w.
Proof.
  unfold known_property. apply bind_ext. intros known w1.
  destruct known; [|reflexivity]. apply bind_at.
  destruct (bool_decide _); [apply classList_add_globals|reflexivity].
Qed.

Lemma resolve_pair_globals (node : nat) (k : Key) (v : value) (w : World) :
  resolve_pair (with_globals R g) node k v w = resolve_pair R node k v w.
Proof.
  unfold resolve_pair.
  assert (Hn : named_intent (with_globals R g) node k v =
               named_intent R node k v).
  { unfold named_intent, lookup_identifier. simpl globals.
    rewrite Hg by discriminate. reflexivity. }
  rewrite Hn. apply bind_ext. intros [|k1 v1] w1; [reflexivity|].
  unfold onward. apply bind_at, known_property_globals.
Qed.

Lemma resolve_globals (node : nat) (custom : bool) (options : Bag) (w : World) :
  resolve (with_globals R g) node custom options w =
  resolve R node custom options w.
Proof.
  unfold resolve. apply for_each_ext_in. intros k w0 _. unfold resolve_key.
  destruct (custom && _); [reflexivity|]. unfold bind.
  destruct (read options k w0) as [[v|x] w1]; [|reflexivity].
  apply resolve_pair_globals.
Qed.

(** X18.  With a document among the options the global [document] is never
    consulted (line 18): the call does the same whatever that global is
    bound to, and without it. *)
Theorem own_document_replaces_the_global (tag : Tag) (options : Bag)
    (childNodes : list value) (w : World) :
  truthy (default VUndefined (assoc (KStr "document") options)) = true ->
  configure (with_globals R g) tag (Some options) childNodes w =
  configure R tag (Some options) childNodes w.
Proof.
  intros Hd. unfold configure. simpl default.
  assert (Hp : provide (with_globals R g) tag options w =
               provide R tag options w).
  { unfold provide. unfold bind at 1 3.
    assert (Hc : choose_document (with_globals R g) options w =
                 choose_document R options w).
    { unfold choose_document, read, bind, record, ret. simpl. rewrite Hd.
      reflexivity. }
    rewrite Hc. reflexivity. }
  etransitivity; [apply bind_at, Hp|]. apply bind_ext.
  intros [[custom n]|] w1; [|reflexivity].
  etransitivity; [apply bind_at, resolve_globals|]. apply bind_ext.
  intros [] w2. apply bind_at.
  destruct childNodes; [reflexivity|apply append_globals].
Qed.

End OwnDocument.

Section Children.

Context (R : Realm).




(** X21.  The [document] option is read at line 18 and then, unlike a
    consumed [is], resolved again by the loop (line 48): on a node without
    such a property it ends up as the [document] attribute, holding the
    JSON text of the document object. *)
Theorem document_option_becomes_an_attribute (node : nat) (e : Element)
    (custom : bool) (options : Bag) (d : nat) (json : value) (t : string)
    (w : World) :
  heap w !! node = Some e ->
  has_property e (KStr "document") = false ->
  assoc (KStr "document") options = Some (VDocument d) ->
  stringify R (VDocument d) = Normal json ->
  to_string R json = Normal t ->
  valid_attribute_name R "document" = true ->
  resolve_key R node custom options (KStr "document") w =
  (Normal tt,
   mkWorld
     (<[node := with_attributes e (<["document" := t]> (el_attributes e))]>
        (heap w))
     (journal w ++ [OptionRead (KStr "document"); AttributeSet node "document" t])).
Proof.
  intros Hnode Hk Hd Hj Ht Hvalid. unfold resolve_key.
  rewrite bool_decide_eq_false_2 by discriminate. rewrite andb_false_r.
  unfold bind at 1, read, bind at 1, record, ret. rewrite Hd. simpl default.
  set (w1 := mkWorld (heap w) (journal w ++ [OptionRead (KStr "document")])).
  assert (H1 : heap w1 !! node = Some e) by exact Hnode.
  assert (Hn : "document" ∉ named_intents).
  { unfold named_intents. intros H.
    repeat (apply elem_of_cons in H as [H|H]; [discriminate H|]).
    apply elem_of_nil in H as []. }
  rewrite (resolve_pair_by_type R w1 node e H1 "document" (VDocument d) Hk Hn)
    by reflexivity.
  unfold by_type. simpl.
  change (fallback_name "document") with "document".
  unfold bind, lift. rewrite Hj.
  rewrite (setAttribute_valid R _ _ _ _ _ _ H1 Hvalid Ht).
  subst w1. simpl. rewrite <- app_assoc. reflexivity.
Qed.

End Children.

Section FurtherRuns.

Import Sample.

Lemma not_named (s : string) :
  forallb (fun n => negb (String.eqb s n)) named_intents = true ->
  s ∉ named_intents.
Proof.
  unfold named_intents. simpl. intros H Hin.
  repeat (apply elem_of_cons in Hin as [->|Hin];
          [rewrite String.eqb_refl in H; simpl in H;
           rewrite ?andb_false_r in H; discriminate H|]).
  apply elem_of_nil in Hin as [].
Qed.



Lemma callable_value_is_registered_witness :
  resolve_pair realm 0 (KStr "click") (VObject true []) world =
  (Normal tt,
   mkWorld
     (<[0 := with_listeners (html_element "div")
               (el_listeners (html_element "div")
                ++ [("click", VObject true [], None)])]> (heap world))
     (journal world ++ [ListenerAdded 0 "click" (VObject true []) None])).
Proof.
  refine (callable_value_is_registered realm world 0 (html_element "div") _
            "click" (VObject true []) _ _ _ _ (or_introl _));
    [vm_compute; reflexivity | vm_compute; reflexivity
    | apply not_named; vm_compute; reflexivity
    | vm_compute; reflexivity | vm_compute; reflexivity
    | vm_compute; reflexivity].
Defined.



Lemma data_is_merged_into_the_dataset_witness :
  resolve_pair realm 0 (KStr "data")
    (VObject false [(KStr "id", VNumber 7); (KStr "kind", VString "x")])
    world =
  (Normal tt,
   mkWorld
     (<[0 := with_props (html_element "div")
               (<[KStr "dataset" :=
                    StringMap (dataset_written [("id", "7"); ("kind", "x")] ∅)]>
                  (el_props (html_element "div")))]> (heap world))
     (journal world
      ++ map (fun sv => DatasetSet 0 (fst sv) (snd sv))
           [("id", "7"); ("kind", "x")])).
Proof.
  refine (data_is_merged_into_the_dataset realm 0 world (html_element "div")
            _ ∅ [("id", "7"); ("kind", "x")] _ _ _ _);
    [vm_compute; reflexivity | vm_compute; reflexivity
    | vm_compute; reflexivity |].
  constructor; [repeat split; vm_compute; reflexivity|].
  constructor; [repeat split; vm_compute; reflexivity|constructor].
Defined.

Lemma class_list_is_extended_witness :
  exists now,
    resolve_pair realm 0 (KStr "classList")
      (VArray [VString "a"; VString "b"; VString "a"]) world =
    (Normal tt,
     mkWorld
       (<[0 := with_props (html_element "div")
                 (<[KStr "classList" := TokenList now]>
                    (el_props (html_element "div")))]> (heap world))
       (journal world ++ [ClassesAdded 0 ["a"; "b"; "a"]]))
    /\ [] `prefix_of` now
    /\ (forall t, t ∈ now <-> t ∈ [] \/ t ∈ ["a"; "b"; "a"])
    /\ (NoDup (A := string) [] -> NoDup now).
Proof.
  refine (class_list_is_extended realm 0 world (html_element "div")
            (VArray [VString "a"; VString "b"; VString "a"]) []
            [VString "a"; VString "b"; VString "a"] ["a"; "b"; "a"]
            _ _ _ _ _);
    vm_compute; reflexivity.
Defined.

Lemma merged_bags_resolve_in_turn_witness :
  resolve realm 0 false
    ([(KStr "title", VString "t")] ++ [(KStr "id", VString "i")])%list world =
  (resolve realm 0 false [(KStr "title", VString "t")] ;;
   resolve realm 0 false [(KStr "id", VString "i")]) world.
Proof.
  refine (merged_bags_resolve_in_turn realm 0 false
            [(KStr "title", VString "t")] [(KStr "id", VString "i")] world _).
  intros k Hk Hk'. simpl in Hk, Hk'.
  apply list_elem_of_singleton in Hk, Hk'. congruence.
Defined.


Lemma options_are_read_once_in_order_witness :
  reads [OptionRead (KStr "title");
         PropertySet 0 (KStr "title") (VString "t");
         OptionRead (KStr "id"); PropertySet 0 (KStr "id") (VString "i")]
    `prefix_of`
    resolved_keys false
      [(KStr "title", VString "t"); (KStr "id", VString "i")]
  /\ (fst (resolve realm 0 false
             [(KStr "title", VString "t"); (KStr "id", VString "i")] world) =
        Normal tt ->
      reads [OptionRead (KStr "title");
             PropertySet 0 (KStr "title") (VString "t");
             OptionRead (KStr "id"); PropertySet 0 (KStr "id") (VString "i")] =
      resolved_keys false
        [(KStr "title", VString "t"); (KStr "id", VString "i")]).
Proof.
  refine (options_are_read_once_in_order realm 0 false
            [(KStr "title", VString "t"); (KStr "id", VString "i")] world
            (html_element "div") _ _ _);
    vm_compute; reflexivity.
Defined.

Lemma no_document_no_call_witness :
  configure (with_globals realm ∅) (TagNode 0) None [] world =
  (Throw ReferenceError,
   mkWorld (heap world) (journal world ++ [OptionRead (KStr "document")])).
Proof.
  refine (no_document_no_call (with_globals realm ∅) (TagNode 0) None []
            world _).
  vm_compute; reflexivity.
Defined.

Lemma matched_selector_is_the_node_itself_witness :
  configure realm (TagString "<#app") (Some [(KStr "title", VString "t")])
    [VString "hi"] world =
  configure realm (TagNode 0) (Some [(KStr "title", VString "t")])
    [VString "hi"] world.
Proof.
  refine (matched_selector_is_the_node_itself realm "<#app" 0 0
            (Some [(KStr "title", VString "t")]) [VString "hi"] world _ _ _);
    vm_compute; reflexivity.
Defined.

Lemma hint_is_consumed_only_by_plain_tags_witness :
  true = true <->
  exists s,
    TagString "div" = TagString s /\ startsWith s "<" = false
    /\ svg_tag s = false
    /\ is_hint [(KStr "is", VString "x-a")] = true.
Proof.
  refine (hint_is_consumed_only_by_plain_tags realm (TagString "div")
            [(KStr "is", VString "x-a")] world
            (snd (provide realm (TagString "div")
                    [(KStr "is", VString "x-a")] world))
            true 3 _).
  vm_compute; reflexivity.
Defined.

Lemma created_element_is_new_witness :
  (forall r e, heap world !! r = Some e ->
     heap (snd (configure realm (TagString "div")
                  (Some [(KStr "title", VString "t")]) [] world)) !! r =
       Some e)
  /\ forall v,
       fst (configure realm (TagString "div")
              (Some [(KStr "title", VString "t")]) [] world) = Normal v ->
       exists n, v = VNode n /\ heap world !! n = None.
Proof.
  refine (created_element_is_new realm "div"
            (Some [(KStr "title", VString "t")]) world _).
  vm_compute; reflexivity.
Defined.

Lemma own_document_replaces_the_global_witness :
  configure (with_globals realm ∅) (TagString "div")
    (Some [(KStr "document", VDocument 0)]) [] world =
  configure realm (TagString "div")
    (Some [(KStr "document", VDocument 0)]) [] world.
Proof.
  refine (own_document_replaces_the_global realm ∅ _ (TagString "div")
            [(KStr "document", VDocument 0)] [] world _).
  - intros name Hn. rewrite lookup_empty. symmetry.
    apply lookup_singleton_ne. congruence.
  - vm_compute; reflexivity.
Defined.



Lemma document_option_becomes_an_attribute_witness :
  resolve_key realm 0 false [(KStr "document", VDocument 0)] (KStr "document")
    world =
  (Normal tt,
   mkWorld
     (<[0 := with_attributes (html_element "div")
               (<["document" := "{}"]> (el_attributes (html_element "div")))]>
        (heap world))
     (journal world
      ++ [OptionRead (KStr "document"); AttributeSet 0 "document" "{}"])).
Proof.
  refine (document_option_becomes_an_attribute realm 0 (html_element "div")
            false [(KStr "document", VDocument 0)] 0 (VString "{}") "{}"
            world _ _ _ _ _ _);
    vm_compute; reflexivity.
Defined.

End FurtherRuns.
